(** * fas-download: the adaptive range downloader of [main.go]

    A shallow embedding of the Go program: 64-bit integers are [Z] with
    the wrap-around written out, [time.Duration] is an [int64] count of
    nanoseconds, strings are byte strings, the HTTP header is a finite
    map, the network, the clock and the file system are explicit
    arguments, and the worker pool is a labelled transition system. *)

From Stdlib Require Import ZArith QArith Lia List Ascii String.
From stdpp Require Import base list gmap strings.

Local Open Scope Z_scope.

(** ** Machine integers *)

Module Int64.

Definition min_int : Z := - 2 ^ 63.
Definition max_int : Z := 2 ^ 63 - 1.

Definition in_range (z : Z) : Prop := min_int <= z <= max_int.

(** Two's complement wrap-around of Go's [int64] (and of [int] on the
    64-bit targets [build.sh] builds for). *)
Definition wrap (z : Z) : Z := (z + 2 ^ 63) mod 2 ^ 64 - 2 ^ 63.

Definition add (a b : Z) : Z := wrap (a + b).
Definition sub (a b : Z) : Z := wrap (a - b).

End Int64.

(** ** Data model *)

(** [time.Duration]: nanoseconds in an [int64]. *)
Definition Duration : Type := Z.
Definition Second : Duration := 1000000000.

(** The [error] values the program builds or passes on. *)
Inductive error : Type :=
| ErrExternal (msg : string)            (* reported by net/http, os or io *)
| ErrSyntax (num : string)              (* strconv.ErrSyntax *)
| ErrRange (num : string)               (* strconv.ErrRange *)
| ErrStatus (status : string)           (* "server returned status: %s" *)
| ErrChunk (index : Z) (cause : error)  (* "chunk %d failed: %v" *)
| ErrFileInfo (cause : error).          (* "failed to get file info: %v" *)

Record ChunkInfo : Type := mkChunk {
  Start : Z;
  End : Z;
  Index : Z
}.

Record DownloadStats : Type := mkStats {
  BytesDownloaded : Z;
  StartTime : Z;
  ChunkTimes : list Duration
}.

Record AdaptiveDownloader : Type := mkDownloader {
  URL : string;
  Filename : string;
  MaxConnections : Z;
  MinConnections : Z;
  CurrentConnections : Z;
  ChunkSize : Z;
  FileSize : Z;
  Stats : DownloadStats
}.

Definition set_CurrentConnections (n : Z) (d : AdaptiveDownloader) :=
  mkDownloader (URL d) (Filename d) (MaxConnections d) (MinConnections d)
    n (ChunkSize d) (FileSize d) (Stats d).

Definition set_FileSize (n : Z) (d : AdaptiveDownloader) :=
  mkDownloader (URL d) (Filename d) (MaxConnections d) (MinConnections d)
    (CurrentConnections d) (ChunkSize d) n (Stats d).

Definition set_Stats (s : DownloadStats) (d : AdaptiveDownloader) :=
  mkDownloader (URL d) (Filename d) (MaxConnections d) (MinConnections d)
    (CurrentConnections d) (ChunkSize d) (FileSize d) s.

Definition set_ChunkTimes (ts : list Duration) (s : DownloadStats) :=
  mkStats (BytesDownloaded s) (StartTime s) ts.

Definition set_BytesDownloaded (n : Z) (s : DownloadStats) :=
  mkStats n (StartTime s) (ChunkTimes s).

(** [NewAdaptiveDownloader]; [now] is the reading of [time.Now()]. *)
Definition NewAdaptiveDownloader (now : Z) (url filename : string)
  : AdaptiveDownloader :=
  {| URL := url;
     Filename := filename;
     MaxConnections := 16;
     MinConnections := 2;
     CurrentConnections := 4;
     ChunkSize := 1024 * 1024;
     FileSize := 0;
     Stats := {| BytesDownloaded := 0; StartTime := now; ChunkTimes := [] |} |}.

(** ** The adaptive controller *)

(** [d.Stats.ChunkTimes[len(d.Stats.ChunkTimes)-3:]] *)
Definition recent (ts : list Duration) : list Duration :=
  drop (length ts - 3)%nat ts.

(** [for _, t := range recent { totalTime += t }] *)
Definition totalTime (ts : list Duration) : Duration :=
  fold_left Int64.add ts 0.

(** [totalTime / time.Duration(len(recent))]: Go's [/] truncates toward
    zero. *)
Definition avgTime (ts : list Duration) : Duration :=
  Z.quot (totalTime (recent ts)) (Z.of_nat (length (recent ts))).

Definition calculateOptimalConnections (d : AdaptiveDownloader)
  : AdaptiveDownloader :=
  if (length (ChunkTimes (Stats d)) <? 3)%nat then d
  else
    let avg := avgTime (ChunkTimes (Stats d)) in
    if (avg <? 2 * Second) && (CurrentConnections d <? MaxConnections d) then
      set_CurrentConnections (Int64.add (CurrentConnections d) 1) d
    else if (avg >? 5 * Second) && (CurrentConnections d >? MinConnections d) then
      set_CurrentConnections (Int64.sub (CurrentConnections d) 1) d
    else d.

(** The fields are Go [int]s. *)
Definition connections_in_range (d : AdaptiveDownloader) : Prop :=
  Int64.in_range (MaxConnections d) /\
  Int64.in_range (MinConnections d) /\
  Int64.in_range (CurrentConnections d).

(** The controller as the specification words it: the mean is the exact
    arithmetic mean of the three most recent samples, a rational. *)
Definition exact_mean (ts : list Duration) : Q :=
  Qmake (fold_right Z.add 0 (recent ts)) (Pos.of_nat (length (recent ts))).

Definition seconds (n : Z) : Q := inject_Z (n * Second).


(** Any number of controller calls, each one seeing whatever history the
    segment fetches have left by then. *)
Definition with_history (ts : list Duration) (d : AdaptiveDownloader) :=
  set_Stats (set_ChunkTimes ts (Stats d)) d.

Definition controller_calls (hs : list (list Duration)) (d : AdaptiveDownloader)
  : AdaptiveDownloader :=
  fold_left (fun d ts => calculateOptimalConnections (with_history ts d)) hs d.


(** ** The chunk planner *)

(** The planning loop of [Download]:
    [for i := int64(0); i < d.FileSize; i += d.ChunkSize { ... }].
    [fuel] bounds the number of iterations; [None] is a loop still running
    when the fuel is spent. *)
Fixpoint planChunks_loop (fuel : nat) (fileSize chunkSize i : Z)
    (chunks : list ChunkInfo) : option (list ChunkInfo) :=
  match fuel with
  | O => None
  | S fuel' =>
      if i <? fileSize then
        let end0 := Int64.sub (Int64.add i chunkSize) 1 in
        let end1 := if end0 >=? fileSize then Int64.sub fileSize 1 else end0 in
        planChunks_loop fuel' fileSize chunkSize (Int64.add i chunkSize)
          (chunks ++ [mkChunk i end1 (Z.of_nat (length chunks))])
      else Some chunks
  end.

Definition planChunks (fuel : nat) (fileSize chunkSize : Z)
  : option (list ChunkInfo) :=
  planChunks_loop fuel fileSize chunkSize 0 [].

(** Number of segments of length [L] needed for [size] bytes. *)
Definition segment_count (size L : Z) : Z := (size + L - 1) / L.

(** The plan in closed form. *)
Definition planned_upto (size L n : Z) : list ChunkInfo :=
  (fun k => mkChunk (k * L) (Z.min (k * L + L - 1) (size - 1)) k) <$> seqZ 0 n.

(** What the planner owes: the properties of a plan [l] for [size] bytes in
    segments of [L]. *)
Record well_planned (size L : Z) (l : list ChunkInfo) : Prop := {
  wp_index : forall (k : nat) c, l !! k = Some c -> Index c = Z.of_nat k;
  wp_nonempty : forall c, c ∈ l -> Start c <= End c;
  wp_ordered : forall (j k : nat) c c',
    l !! j = Some c -> l !! k = Some c' -> (j < k)%nat -> Start c < Start c';
  wp_contiguous : forall (k : nat) c c',
    l !! k = Some c -> l !! (k + 1)%nat = Some c' -> Start c' = End c + 1;
  wp_disjoint : forall (j k : nat) c c',
    l !! j = Some c -> l !! k = Some c' -> j <> k ->
    End c < Start c' \/ End c' < Start c;
  wp_cover : forall b, 0 <= b < size <-> exists c, c ∈ l /\ Start c <= b <= End c;
  wp_length : forall (k : nat) c,
    l !! k = Some c -> (k + 1 < length l)%nat -> End c - Start c + 1 = L;
  wp_last : forall c,
    last l = Some c -> End c = size - 1 /\ End c - Start c + 1 <= L;
  wp_empty : size = 0 -> l = []
}.

(** ** The capability probe *)

Definition StatusOK : Z := 200.
Definition StatusPartialContent : Z := 206.

(** The part of [http.Response] the program reads. *)
Record Response : Type := mkResponse {
  StatusCode : Z;
  Status : string;
  Header : gmap string (list string)
}.

(** [http.Header.Get] for a key already in canonical form: the first value
    stored under the key, or the empty string. *)
Definition Header_Get (h : gmap string (list string)) (key : string) : string :=
  match h !! key with
  | Some (v :: _) => v
  | _ => ""
  end.

(** [strconv.ParseInt(s, 10, 64)] of the Go standard library. *)
Definition maxUint64 : Z := 2 ^ 64 - 1.

Definition digit (c : ascii) : option Z :=
  let n := Z.of_N (N_of_ascii c) in
  if (48 <=? n) && (n <=? 57) then Some (n - 48) else None.

Inductive NumError : Type := SyntaxError | RangeError.

Fixpoint ParseUint_digits (s : string) (n : Z) : NumError + Z :=
  match s with
  | EmptyString => inr n
  | String c s' =>
      match digit c with
      | None => inl SyntaxError
      | Some d =>
          if n >=? maxUint64 / 10 + 1 then inl RangeError
          else
            let n1 := n * 10 + d in
            if n1 >? maxUint64 then inl RangeError
            else ParseUint_digits s' n1
      end
  end.

Definition ParseUint (s : string) : NumError + Z :=
  match s with
  | EmptyString => inl SyntaxError
  | _ => ParseUint_digits s 0
  end.

Definition ParseInt (s : string) : error + Z :=
  match s with
  | EmptyString => inl (ErrSyntax s)
  | String c s' =>
      let neg := Ascii.eqb c "-"%char in
      let digits := if Ascii.eqb c "+"%char || neg then s' else s in
      match ParseUint digits with
      | inl SyntaxError => inl (ErrSyntax s)
      | inl RangeError => inl (ErrRange s)
      | inr un =>
          if negb neg && (un >=? 2 ^ 63) then inl (ErrRange s)
          else if neg && (un >? 2 ^ 63) then inl (ErrRange s)
          else inr (if neg then - un else un)
      end
  end.

(** [getFileSize]; [head] is what [http.Head(d.URL)] returns.  The result
    is the downloader with [FileSize] set, and the pair the Go function
    returns. *)
Definition getFileSize (d : AdaptiveDownloader) (head : error + Response)
  : AdaptiveDownloader * (bool * option error) :=
  match head with
  | inl err => (d, (false, Some err))
  | inr resp =>
      if negb (StatusCode resp =? StatusOK) then
        (d, (false, Some (ErrStatus (Status resp))))
      else
        let contentLength := Header_Get (Header resp) "Content-Length" in
        if String.eqb contentLength "" then
          (set_FileSize (-1) d, (false, None))
        else
          match ParseInt contentLength with
          | inl err => (d, (false, Some err))
          | inr size =>
              (set_FileSize size d,
               (String.eqb (Header_Get (Header resp) "Accept-Ranges") "bytes",
                None))
          end
  end.

(** ** The file system and the network *)

(** The program's effects are kept as logs of the calls it makes, oldest
    first, each file call with the error the operating system answered. *)
Inductive FileOp : Type :=
| OpCreate (name : string)
| OpTruncate (size : Z)
| OpWrite (data : list Byte.byte)
| OpWriteAt (data : list Byte.byte) (off : Z).

Record FileCall : Type := mkCall {
  call_op : FileOp;
  call_err : option error
}.

Inductive Request : Type :=
| ReqHead (url : string)
| ReqGet (url : string)
| ReqGetRange (url : string) (first last : Z).  (* Range: bytes=first-last *)

Record World : Type := mkWorld {
  fs : list FileCall;
  net : list Request
}.

Definition log_file (c : FileCall) (w : World) : World :=
  mkWorld (fs w ++ [c]) (net w).

Definition log_net (r : Request) (w : World) : World :=
  mkWorld (fs w) (net w ++ [r]).

(** The error of [resp.Body.Read]: [nil], [io.EOF] or another error. *)
Inductive ReadError : Type :=
| ReadNil
| ReadEOF
| ReadFailure (e : error).

(** One iteration of a copy loop as the environment answers it: the bytes
    and error [Read] delivers and, when bytes are delivered, the error of
    the write that follows. *)
Record BodyStep : Type := mkStep {
  rd_data : list Byte.byte;
  rd_err : ReadError;
  wr_err : option error
}.

(** What a range request meets. *)
Inductive FetchReply : Type :=
| NewRequestFails (e : error)
| DoFails (e : error)
| Responds (resp : Response) (body : list BodyStep).

(** ** The segment fetcher *)

Definition add_bytes (n : Z) (st : DownloadStats) : DownloadStats :=
  set_BytesDownloaded (Int64.add (BytesDownloaded st) n) st.

(** The read loop of [downloadChunk].  A body with no step left reads as
    [0, io.EOF]. *)
Fixpoint copyChunk (body : list BodyStep) (offset : Z) (w : World)
    (st : DownloadStats) : World * DownloadStats * option error :=
  match body with
  | [] => (w, st, None)
  | step :: body' =>
      let n := Z.of_nat (length (rd_data step)) in
      if 0 <? n then
        let w' := log_file (mkCall (OpWriteAt (rd_data step) offset) (wr_err step)) w in
        match wr_err step with
        | Some writeErr => (w', st, Some writeErr)
        | None =>
            let offset' := Int64.add offset n in
            let st' := add_bytes n st in
            match rd_err step with
            | ReadEOF => (w', st', None)
            | ReadFailure e => (w', st', Some e)
            | ReadNil => copyChunk body' offset' w' st'
            end
        end
      else
        match rd_err step with
        | ReadEOF => (w, st, None)
        | ReadFailure e => (w, st, Some e)
        | ReadNil => copyChunk body' offset w st
        end
  end.

(** The deferred function of [downloadChunk]. *)
Definition record_duration (elapsed : Duration) (d : AdaptiveDownloader)
  : AdaptiveDownloader :=
  set_Stats (set_ChunkTimes (ChunkTimes (Stats d) ++ [elapsed]) (Stats d)) d.

(** [downloadChunk]; [elapsed] is [time.Since(start)] as the deferred
    function reads it. *)
Definition downloadChunk (d : AdaptiveDownloader) (chunk : ChunkInfo)
    (w : World) (reply : FetchReply) (elapsed : Duration)
  : AdaptiveDownloader * World * option error :=
  let '(w', st', err) :=
    match reply with
    | NewRequestFails e => (w, Stats d, Some e)
    | DoFails e =>
        (log_net (ReqGetRange (URL d) (Start chunk) (End chunk)) w,
         Stats d, Some e)
    | Responds resp body =>
        let w1 := log_net (ReqGetRange (URL d) (Start chunk) (End chunk)) w in
        if negb (StatusCode resp =? StatusPartialContent) then
          (w1, Stats d, Some (ErrStatus (Status resp)))
        else copyChunk body (Start chunk) w1 (Stats d)
    end in
  (record_duration elapsed (set_Stats st' d), w', err).

(** ** The fallback single-stream downloader *)

Record SingleEnv : Type := mkSingleEnv {
  se_create : option error;                       (* os.Create *)
  se_get : error + (Response * list BodyStep)     (* client.Get *)
}.

(** The read loop of [downloadSingleConnection]. *)
Fixpoint copyStream (body : list BodyStep) (w : World) (st : DownloadStats)
  : World * DownloadStats * option error :=
  match body with
  | [] => (w, st, None)
  | step :: body' =>
      let n := Z.of_nat (length (rd_data step)) in
      if 0 <? n then
        let w' := log_file (mkCall (OpWrite (rd_data step)) (wr_err step)) w in
        match wr_err step with
        | Some writeErr => (w', st, Some writeErr)
        | None =>
            let st' := add_bytes n st in
            match rd_err step with
            | ReadEOF => (w', st', None)
            | ReadFailure e => (w', st', Some e)
            | ReadNil => copyStream body' w' st'
            end
        end
      else
        match rd_err step with
        | ReadEOF => (w, st, None)
        | ReadFailure e => (w, st, Some e)
        | ReadNil => copyStream body' w st
        end
  end.

(** [downloadSingleConnection].  The last component is the byte count of
    the closing report ("File size: %d bytes"), printed on success only. *)
Definition downloadSingleConnection (d : AdaptiveDownloader) (w : World)
    (env : SingleEnv) : AdaptiveDownloader * World * option error * option Z :=
  let w1 := log_file (mkCall (OpCreate (Filename d)) (se_create env)) w in
  match se_create env with
  | Some err => (d, w1, Some err, None)
  | None =>
      let w2 := log_net (ReqGet (URL d)) w1 in
      match se_get env with
      | inl err => (d, w2, Some err, None)
      | inr (resp, body) =>
          if negb (StatusCode resp =? StatusOK) then
            (d, w2, Some (ErrStatus (Status resp)), None)
          else
            let '(w3, st, err) := copyStream body w2 (Stats d) in
            let d' := set_Stats st d in
            match err with
            | Some e => (d', w3, Some e, None)
            | None => (d', w3, None, Some (BytesDownloaded st))
            end
      end
  end.

(** ** The worker pool *)

(** The goroutines of [Download] as an interleaving semantics.  The queue
    [chunkChan] is filled and closed before the workers start, and
    [errChan] is made with the capacity [d.CurrentConnections] has at that
    point.  The main goroutine then runs its loop
    [for i := 0; i < d.CurrentConnections; i++], which reads the field
    again before every iteration while the workers already started may
    change it through [calculateOptimalConnections]: each iteration is a
    step of its own, [i] being the number of workers started so far, and
    the number of workers in the end need not be the capacity of
    [errChan].  After the loop the main goroutine waits in [wg.Wait()].  A
    worker moves in two kinds of steps: it receives from [chunkChan] (or
    finds it drained and returns), and it finishes the [downloadChunk] it
    is in, whose effects on the shared statistics and on the file take
    place at that step, together with the call of
    [calculateOptimalConnections] that follows a completed segment whose
    index is a multiple of 5.  Which goroutine moves next and what a
    request meets is given by a schedule.  The progress reporter only
    reads and is left out.

    A worker goroutine is between segments, fetching one, stuck on a full
    error channel, or gone. *)
Inductive worker : Type :=
| Idle
| Busy (c : ChunkInfo)
| Blocked (e : error)
| Exited.

Record Pool : Type := mkPool {
  pool_d : AdaptiveDownloader;
  pool_w : World;
  chunkChan : list ChunkInfo;
  errChan : list error;
  errCap : nat;
  workers : list worker;
  spawning : bool    (* the main goroutine is still in its spawn loop *)
}.

(** The scheduler picks a goroutine: the main goroutine runs one test of
    its spawn loop, or a worker either receives from [chunkChan] or
    finishes the fetch it is in, the environment supplying the reply and
    the measured duration. *)
Inductive action : Type :=
| Spawn
| Take (w : nat)
| Finish (w : nat) (reply : FetchReply) (elapsed : Duration).

Inductive event : Type :=
| Dispatched (w : nat) (c : ChunkInfo)
| Completed (w : nat) (c : ChunkInfo)
| Failed (w : nat) (c : ChunkInfo) (cause : error)
| Left (w : nat).

Definition pool_step (a : action) (p : Pool) : Pool * list event :=
  match a with
  | Spawn =>
      if spawning p then
        if Z.of_nat (length (workers p)) <? CurrentConnections (pool_d p) then
          (mkPool (pool_d p) (pool_w p) (chunkChan p) (errChan p) (errCap p)
             (workers p ++ [Idle]) true,
           [])
        else
          (mkPool (pool_d p) (pool_w p) (chunkChan p) (errChan p) (errCap p)
             (workers p) false,
           [])
      else (p, [])
  | Take w =>
      match workers p !! w with
      | Some Idle =>
          match chunkChan p with
          | [] =>
              (mkPool (pool_d p) (pool_w p) [] (errChan p) (errCap p)
                 (<[w := Exited]> (workers p)) (spawning p),
               [Left w])
          | c :: queue =>
              (mkPool (pool_d p) (pool_w p) queue (errChan p) (errCap p)
                 (<[w := Busy c]> (workers p)) (spawning p),
               [Dispatched w c])
          end
      | _ => (p, [])
      end
  | Finish w reply elapsed =>
      match workers p !! w with
      | Some (Busy c) =>
          let '(d', w', err) :=
            downloadChunk (pool_d p) c (pool_w p) reply elapsed in
          match err with
          | Some e =>
              let e' := ErrChunk (Index c) e in
              if (length (errChan p) <? errCap p)%nat then
                (mkPool d' w' (chunkChan p) (errChan p ++ [e']) (errCap p)
                   (<[w := Exited]> (workers p)) (spawning p),
                 [Failed w c e])
              else
                (mkPool d' w' (chunkChan p) (errChan p) (errCap p)
                   (<[w := Blocked e']> (workers p)) (spawning p),
                 [Failed w c e])
          | None =>
              let d'' := if Z.rem (Index c) 5 =? 0
                         then calculateOptimalConnections d' else d' in
              (mkPool d'' w' (chunkChan p) (errChan p) (errCap p)
                 (<[w := Idle]> (workers p)) (spawning p),
               [Completed w c])
          end
      | _ => (p, [])
      end
  end.

Fixpoint run_pool (acts : list action) (p : Pool) : Pool * list event :=
  match acts with
  | [] => (p, [])
  | a :: acts' =>
      let '(p1, ev1) := pool_step a p in
      let '(p2, ev2) := run_pool acts' p1 in
      (p2, ev1 ++ ev2)
  end.

(** The pool as [Download] has it when it enters the spawn loop: the
    queue filled and closed, an error channel of capacity
    [d.CurrentConnections], no worker yet. *)
Definition start_pool (d : AdaptiveDownloader) (w : World)
    (chunks : list ChunkInfo) : Pool :=
  mkPool d w chunks [] (Z.to_nat (CurrentConnections d)) [] true.

Definition is_exited (x : worker) : bool :=
  match x with Exited => true | _ => false end.

Inductive Outcome : Type :=
| Returned (err : option error)
| Running      (* goroutines or a loop still at work when the schedule ends *)
| Panicked.

(** [wg.Wait()], reached once the spawn loop is left and passed once
    every worker started has returned, followed by the non-blocking
    receive from [errChan]. *)
Definition pool_outcome (p : Pool) : Outcome :=
  if negb (spawning p) && forallb is_exited (workers p)
  then Returned (head (errChan p))
  else Running.

(** ** Download *)

Record Env : Type := mkEnv {
  env_head : error + Response;     (* http.Head *)
  env_single : SingleEnv;          (* the fallback path *)
  env_create : option error;       (* os.Create *)
  env_truncate : option error;     (* file.Truncate *)
  env_fuel : nat;                  (* iterations granted to the planner *)
  env_schedule : list action       (* the pool's interleaving *)
}.

Record Result : Type := mkResult {
  res_d : AdaptiveDownloader;
  res_w : World;
  res_events : list event;
  res_outcome : Outcome;
  res_reported : option Z
}.

Definition Download (d : AdaptiveDownloader) (env : Env) : Result :=
  let w0 := log_net (ReqHead (URL d)) (mkWorld [] []) in
  let '(d1, (supportsRanges, err)) := getFileSize d (env_head env) in
  match err with
  | Some e => mkResult d1 w0 [] (Returned (Some (ErrFileInfo e))) None
  | None =>
      if negb supportsRanges then
        let '(d2, w, err, reported) :=
          downloadSingleConnection d1 w0 (env_single env) in
        mkResult d2 w [] (Returned err) reported
      else
        let w1 := log_file (mkCall (OpCreate (Filename d1)) (env_create env)) w0 in
        match env_create env with
        | Some e => mkResult d1 w1 [] (Returned (Some e)) None
        | None =>
            let w2 := log_file (mkCall (OpTruncate (FileSize d1))
                                  (env_truncate env)) w1 in
            match env_truncate env with
            | Some e => mkResult d1 w2 [] (Returned (Some e)) None
            | None =>
                match planChunks (env_fuel env) (FileSize d1) (ChunkSize d1) with
                | None => mkResult d1 w2 [] Running None
                | Some chunks =>
                    if CurrentConnections d1 <? 0 then
                      mkResult d1 w2 [] Panicked None
                    else
                      let '(p, evs) :=
                        run_pool (env_schedule env) (start_pool d1 w2 chunks) in
                      mkResult (pool_d p) (pool_w p) evs (pool_outcome p) None
                end
            end
        end
  end.

(** ** Vocabulary for the copy loops *)

(** Whether a copy loop leaves after this iteration: a failed write, or a
    [Read] error other than [nil]. *)
Definition has_bytes (step : BodyStep) : bool :=
  0 <? Z.of_nat (length (rd_data step)).

Definition write_fails (step : BodyStep) : bool :=
  has_bytes step && match wr_err step with Some _ => true | None => false end.

Definition stops (step : BodyStep) : bool :=
  write_fails step
  || match rd_err step with ReadNil => false | _ => true end.

(** The buffers a copy loop is handed with [n > 0], in order, up to the
    iteration it leaves at. *)
Fixpoint delivered (body : list BodyStep) : list (list Byte.byte) :=
  match body with
  | [] => []
  | step :: body' =>
      (if has_bytes step then [rd_data step] else [])
      ++ (if stops step then [] else delivered body')
  end.

(** Whether the loop ends without error. *)
Fixpoint succeeds (body : list BodyStep) : bool :=
  match body with
  | [] => true
  | step :: body' =>
      if write_fails step then false
      else match rd_err step with
           | ReadNil => succeeds body'
           | ReadEOF => true
           | ReadFailure _ => false
           end
  end.

Definition total (bufs : list (list Byte.byte)) : Z :=
  fold_right (fun b acc => Z.of_nat (length b) + acc) 0 bufs.

(** The buffers written one after the other from offset [off] on. *)
Fixpoint positioned (off : Z) (bufs : list (list Byte.byte)) : list FileOp :=
  match bufs with
  | [] => []
  | b :: bufs' => OpWriteAt b off :: positioned (off + Z.of_nat (length b)) bufs'
  end.

(** The buffers a range request gets to hand to the loop at all. *)
Definition delivered_by (reply : FetchReply) : list (list Byte.byte) :=
  match reply with
  | Responds resp body =>
      if StatusCode resp =? StatusPartialContent then delivered body else []
  | _ => []
  end.

(** All bytes of a positioned write lie in [[lo, hi)]. *)
Definition written_range (c : FileCall) (lo hi : Z) : Prop :=
  forall b off, call_op c = OpWriteAt b off ->
    lo <= off /\ off + Z.of_nat (length b) <= hi.

(** The buffers whose write succeeded. *)
Fixpoint written (body : list BodyStep) : list (list Byte.byte) :=
  match body with
  | [] => []
  | step :: body' =>
      if write_fails step then []
      else
        (if has_bytes step then [rd_data step] else [])
        ++ match rd_err step with
           | ReadNil => written body'
           | _ => []
           end
  end.

(** ** Vocabulary for the pool *)

Definition with_schedule (acts : list action) (env : Env) : Env :=
  mkEnv (env_head env) (env_single env) (env_create env) (env_truncate env)
    (env_fuel env) acts.

(** The world as the range path finds it once the file is created and
    pre-sized. *)
Definition presized (d : AdaptiveDownloader) (env : Env) : World :=
  log_file (mkCall (OpTruncate (FileSize d)) (env_truncate env))
    (log_file (mkCall (OpCreate (Filename d)) (env_create env))
       (log_net (ReqHead (URL d)) (mkWorld [] []))).

Definition is_live (x : worker) : nat :=
  match x with Exited => 0 | _ => 1 end.

Definition weight (x : worker) : nat :=
  match x with Idle => 1 | Busy _ => 2 | _ => 0 end.

Fixpoint tally (f : worker -> nat) (ws : list worker) : nat :=
  match ws with
  | [] => 0
  | x :: ws' => f x + tally f ws'
  end.

(** What is left to do: every step of a worker lowers it, a worker
    started raises it by one. *)
Definition pool_measure (p : Pool) : nat :=
  2 * length (chunkChan p) + tally weight (workers p).

Definition not_blocked (x : worker) : Prop :=
  match x with Blocked _ => False | _ => True end.

(** What holds of the error channel throughout: every error in it was
    sent by a worker that has returned since, it never holds more than its
    capacity, and a worker is stuck on it only when more workers were
    started than it has slots.  As long as no worker was started the count
    is the one the channel was sized with, and the spawn loop ends there
    only if that count is not positive; so the channel has a slot as soon
    as there is a worker. *)
Record pool_ok (p : Pool) : Prop := {
  ok_sent : (length (errChan p) + tally is_live (workers p)
             <= length (workers p))%nat;
  ok_cap : (length (errChan p) <= errCap p)%nat;
  ok_blocked : Forall not_blocked (workers p)
               \/ (errCap p < length (workers p))%nat;
  ok_none : workers p = [] ->
            errCap p = Z.to_nat (CurrentConnections (pool_d p)) /\
            (spawning p = false -> CurrentConnections (pool_d p) <= 0);
  ok_slot : workers p = [] \/ (0 < errCap p)%nat
}.

(** The spawn loop is over and the error channel has a slot for every
    worker started. *)
Definition settled (p : Pool) : Prop :=
  spawning p = false /\ (length (workers p) <= errCap p)%nat.



(** What one step can be, by the worker it picks. *)
Inductive step_case (a : action) (p : Pool) : Pool * list event -> Prop :=
| case_skip : step_case a p (p, [])
| case_leave k :
    a = Take k -> workers p !! k = Some Idle -> chunkChan p = [] ->
    step_case a p
      (mkPool (pool_d p) (pool_w p) [] (errChan p) (errCap p)
         (<[k := Exited]> (workers p)) (spawning p), [Left k])
| case_dispatch k c queue :
    a = Take k -> workers p !! k = Some Idle -> chunkChan p = c :: queue ->
    step_case a p
      (mkPool (pool_d p) (pool_w p) queue (errChan p) (errCap p)
         (<[k := Busy c]> (workers p)) (spawning p), [Dispatched k c])
| case_fail k c reply elapsed d' w' e :
    a = Finish k reply elapsed -> workers p !! k = Some (Busy c) ->
    downloadChunk (pool_d p) c (pool_w p) reply elapsed = (d', w', Some e) ->
    (length (errChan p) < errCap p)%nat ->
    step_case a p
      (mkPool d' w' (chunkChan p) (errChan p ++ [ErrChunk (Index c) e])
         (errCap p) (<[k := Exited]> (workers p)) (spawning p),
       [Failed k c e])
| case_block k c reply elapsed d' w' e :
    a = Finish k reply elapsed -> workers p !! k = Some (Busy c) ->
    downloadChunk (pool_d p) c (pool_w p) reply elapsed = (d', w', Some e) ->
    (errCap p <= length (errChan p))%nat ->
    step_case a p
      (mkPool d' w' (chunkChan p) (errChan p) (errCap p)
         (<[k := Blocked (ErrChunk (Index c) e)]> (workers p)) (spawning p),
       [Failed k c e])
| case_complete k c reply elapsed d' w' :
    a = Finish k reply elapsed -> workers p !! k = Some (Busy c) ->
    downloadChunk (pool_d p) c (pool_w p) reply elapsed = (d', w', None) ->
    step_case a p
      (mkPool (if Z.rem (Index c) 5 =? 0
               then calculateOptimalConnections d' else d')
         w' (chunkChan p) (errChan p) (errCap p)
         (<[k := Idle]> (workers p)) (spawning p), [Completed k c])
| case_spawn :
    a = Spawn -> spawning p = true ->
    Z.of_nat (length (workers p)) < CurrentConnections (pool_d p) ->
    step_case a p
      (mkPool (pool_d p) (pool_w p) (chunkChan p) (errChan p) (errCap p)
         (workers p ++ [Idle]) true, [])
| case_wait :
    a = Spawn -> spawning p = true ->
    CurrentConnections (pool_d p) <= Z.of_nat (length (workers p)) ->
    step_case a p
      (mkPool (pool_d p) (pool_w p) (chunkChan p) (errChan p) (errCap p)
         (workers p) false, []).

Definition gone (x : worker) : Prop :=
  match x with Exited | Blocked _ => True | _ => False end.

Definition event_worker (ev : event) : nat :=
  match ev with
  | Dispatched k _ | Completed k _ | Failed k _ _ | Left k => k
  end.

(** ** Further vocabulary *)

(** The buffers of a range request whose write succeeded. *)
Definition written_by (reply : FetchReply) : list (list Byte.byte) :=
  match reply with
  | Responds resp body =>
      if StatusCode resp =? StatusPartialContent then written body else []
  | _ => []
  end.

(** ** Reading an event history *)

Definition chunk_of (x : worker) : list ChunkInfo :=
  match x with Busy c => [c] | _ => [] end.

(** The segments the workers are fetching. *)
Definition busy_chunks (ws : list worker) : list ChunkInfo :=
  flat_map chunk_of ws.

(** The segments handed out, completed and failed, in event order. *)
Definition dispatched (evs : list event) : list ChunkInfo :=
  flat_map (fun ev => match ev with Dispatched _ c => [c] | _ => [] end) evs.

Definition completed (evs : list event) : list ChunkInfo :=
  flat_map (fun ev => match ev with Completed _ c => [c] | _ => [] end) evs.

Definition failed (evs : list event) : list ChunkInfo :=
  flat_map (fun ev => match ev with Failed _ c _ => [c] | _ => [] end) evs.

(** The errors the failed fetches have for [errChan], in event order. *)
Definition failures (evs : list event) : list error :=
  flat_map (fun ev => match ev with
                      | Failed _ c e => [ErrChunk (Index c) e]
                      | _ => []
                      end) evs.

Definition is_stuck (x : worker) : nat :=
  match x with Blocked _ => 1 | _ => 0 end.

Definition ends_fetch (ev : event) (k : nat) (c : ChunkInfo) : Prop :=
  ev = Completed k c \/ exists e, ev = Failed k c e.

(** Every fetch that ends was handed to the same worker before. *)
Definition dispatch_first (evs : list event) : Prop :=
  forall evs1 ev evs2 k c,
    evs = evs1 ++ ev :: evs2 -> ends_fetch ev k c -> Dispatched k c ∈ evs1.

(** How the pool stands to the events it has produced since it started
    with the queue [chunks]. *)
Record history_ok (chunks : list ChunkInfo) (evs : list event) (p : Pool)
  : Prop := {
  h_queue : dispatched evs ++ chunkChan p = chunks;
  h_fate : dispatched evs
           ≡ₚ completed evs ++ failed evs ++ busy_chunks (workers p);
  h_busy : forall k c, workers p !! k = Some (Busy c) -> Dispatched k c ∈ evs;
  h_exit : forall k, workers p !! k = Some Exited ->
                     Left k ∈ evs \/ exists c e, Failed k c e ∈ evs;
  h_left : forall k, Left k ∈ evs -> chunkChan p = [];
  h_errs : errChan p = take (errCap p) (failures evs);
  h_order : dispatch_first evs
}.

(** What [Download] leaves of the downloader's settings: everything but
    the statistics, the probed size and the worker count, the latter
    between the bounds. *)
Definition settings_kept (d0 d : AdaptiveDownloader) : Prop :=
  URL d = URL d0 /\
  Filename d = Filename d0 /\
  MaxConnections d = MaxConnections d0 /\
  MinConnections d = MinConnections d0 /\
  ChunkSize d = ChunkSize d0 /\
  MinConnections d0 <= CurrentConnections d <= MaxConnections d0.

(** Bytes covered by a segment, and by a plan. *)
Definition chunk_bytes (c : ChunkInfo) : Z := End c - Start c + 1.

Definition plan_bytes (l : list ChunkInfo) : Z :=
  fold_right (fun c acc => chunk_bytes c + acc) 0 l.

(** ** What the pool does to the world *)

Definition planned_request (url : string) (chunks : list ChunkInfo)
    (q : Request) : Prop :=
  exists c, c ∈ chunks /\ q = ReqGetRange url (Start c) (End c).

Definition positioned_write (c : FileCall) : Prop :=
  exists data off, call_op c = OpWriteAt data off.

Record world_ok (w0 : World) (url : string) (chunks : list ChunkInfo)
    (p : Pool) : Prop := {
  wk_url : URL (pool_d p) = url;
  wk_fs : exists calls,
      fs (pool_w p) = fs w0 ++ calls /\ Forall positioned_write calls;
  wk_net : exists reqs,
      net (pool_w p) = net w0 ++ reqs /\
      Forall (planned_request url chunks) reqs;
  wk_busy : forall k c, workers p !! k = Some (Busy c) -> c ∈ chunks;
  wk_queue : forall c, c ∈ chunkChan p -> c ∈ chunks
}.

(** ** The progress reporter *)

(** A progress line, by its integer fields; the percentage and the speed
    printed with them are floating-point values and are left out. *)
Inductive ProgressLine : Type :=
| LineProgress (downloaded fileSize : Z)  (* "Progress: ..% (%d/%d bytes) .." *)
| LinePlain (downloaded : Z).             (* "Downloaded: %d bytes .." *)

(** [reportProgress] over the ticks of its ticker; [ticks] are the values
    of the byte counter it reads, one per tick.  The result is the lines
    printed and whether the function has returned by the last tick. *)
Fixpoint reportProgress (fileSize : Z) (ticks : list Z)
  : list ProgressLine * bool :=
  match ticks with
  | [] => ([], false)
  | downloaded :: ticks' =>
      if (fileSize >? 0) && (downloaded >=? fileSize) then ([], true)
      else
        let line := if fileSize >? 0 then LineProgress downloaded fileSize
                    else LinePlain downloaded in
        let '(lines, returned) := reportProgress fileSize ticks' in
        (line :: lines, returned)
  end.

(** ** The output file name chosen by [main] *)

Definition is_separator (c : ascii) : bool := Ascii.eqb c "/"%char.

Fixpoint drop_separators (cs : list ascii) : list ascii :=
  match cs with
  | c :: cs' => if is_separator c then drop_separators cs' else cs
  | [] => []
  end.

Fixpoint take_element (cs : list ascii) : list ascii :=
  match cs with
  | c :: cs' => if is_separator c then [] else c :: take_element cs'
  | [] => []
  end.

(** [filepath.Base] of the Go standard library as the Linux and macOS
    builds have it (separator [/], no volume names): trailing separators
    are dropped, the last element is kept, an empty path gives ["."] and a
    path of separators only gives ["/"]. *)
Definition Base (path : string) : string :=
  match path with
  | EmptyString => "."
  | _ =>
      let element :=
        rev (take_element (drop_separators (rev (list_ascii_of_string path)))) in
      match element with
      | [] => "/"
      | _ => string_of_list_ascii element
      end
  end.

(** The file name [main] downloads to; [args] is [os.Args] and [url] the
    URL of the configuration. *)
Definition outputFilename (args : list string) (url : string) : string :=
  match args with
  | _ :: _ :: name :: _ => name
  | _ =>
      let name := Base url in
      if negb (String.eqb name "/") && negb (String.eqb name ".") then name
      else "downloaded_file"
  end.
(** * Properties *)

(** ** Machine integers *)

Ltac int64_lia :=
  unfold Int64.in_range, Int64.min_int, Int64.max_int in *; lia.

Lemma wrap_in_range z : Int64.in_range (Int64.wrap z).
Proof.
  unfold Int64.in_range, Int64.wrap, Int64.min_int, Int64.max_int.
  pose proof (Z.mod_pos_bound (z + 2 ^ 63) (2 ^ 64) ltac:(lia)). lia.
Qed.

Lemma wrap_id z : Int64.in_range z -> Int64.wrap z = z.
Proof.
  unfold Int64.in_range, Int64.wrap, Int64.min_int, Int64.max_int. intros Hz.
  rewrite Z.mod_small by lia. lia.
Qed.

Lemma add_exact a b : Int64.in_range (a + b) -> Int64.add a b = a + b.
Proof. apply wrap_id. Qed.

Lemma sub_exact a b : Int64.in_range (a - b) -> Int64.sub a b = a - b.
Proof. apply wrap_id. Qed.

(** ** The adaptive controller *)

Lemma recent_last3 (h : list Duration) a b c : recent (h ++ [a; b; c]) = [a; b; c].
Proof.
  unfold recent. rewrite length_app. simpl.
  replace (length h + 3 - 3)%nat with (length h) by lia.
  by rewrite drop_app_length.
Qed.



Lemma avgTime_last3 (h : list Duration) a b c :
  avgTime (h ++ [a; b; c])
  = Z.quot (Int64.add (Int64.add (Int64.add 0 a) b) c) 3.
Proof. unfold avgTime. rewrite recent_last3. reflexivity. Qed.

(** One call keeps the count between the bounds it started between. *)
Lemma calculateOptimalConnections_bounds (d : AdaptiveDownloader) :
  connections_in_range d ->
  MinConnections d <= CurrentConnections d <= MaxConnections d ->
  let d' := calculateOptimalConnections d in
  MinConnections d' = MinConnections d /\
  MaxConnections d' = MaxConnections d /\
  MinConnections d <= CurrentConnections d' <= MaxConnections d.
Proof.
  intros (Hmax & Hmin & Hcur) Hb. unfold Int64.in_range in *.
  cbv zeta. unfold calculateOptimalConnections.
  destruct (_ <? 3)%nat; [simpl; lia|].
  destruct (_ && _) eqn:E1.
  - apply andb_true_iff in E1 as [_ E1]. apply Z.ltb_lt in E1. simpl.
    rewrite add_exact by int64_lia. lia.
  - clear E1. destruct (_ && _) eqn:E2; [|simpl; lia].
    apply andb_true_iff in E2 as [_ E2]. apply Z.gtb_lt in E2. simpl.
    rewrite sub_exact by int64_lia. lia.
Qed.




(** Without overflow the quotient is the exact mean rounded toward zero:
    it is below 2s exactly when the mean is, and above 5s exactly when the
    mean is at least 5s + 1ns. *)
Lemma avgTime_exact_mean (h : list Duration) (a b c : Duration) :
  Int64.in_range a -> Int64.in_range (a + b) -> Int64.in_range (a + b + c) ->
  let ts := h ++ [a; b; c] in
  avgTime ts = Z.quot (a + b + c) 3 /\
  (avgTime ts < 2 * Second <-> (exact_mean ts < seconds 2)%Q) /\
  (avgTime ts > 5 * Second <-> (inject_Z (5 * Second + 1) <= exact_mean ts)%Q).
Proof.
  intros Ha Hab Habc ts. subst ts.
  assert (avgTime (h ++ [a; b; c]) = Z.quot (a + b + c) 3) as ->.
  { rewrite avgTime_last3.
    replace (Int64.add 0 a) with a
      by (unfold Int64.add; rewrite Z.add_0_l; symmetry; by apply wrap_id).
    rewrite (add_exact a b) by done. by rewrite (add_exact (a + b) c). }
  unfold exact_mean, seconds, Qlt, Qle, inject_Z. rewrite recent_last3.
  simpl. change (Z.pos (Pos.of_nat 3)) with 3. unfold Second in *.
  pose proof (Z.quot_rem' (a + b + c) 3) as Hqr.
  assert (-3 < Z.rem (a + b + c) 3 < 3 /\
          (0 <= a + b + c -> 0 <= Z.rem (a + b + c) 3) /\
          (a + b + c <= 0 -> Z.rem (a + b + c) 3 <= 0)) as (Hr & Hpos & Hneg).
  { destruct (Z.le_gt_cases 0 (a + b + c)) as [Hs|Hs].
    - pose proof (Z.rem_bound_pos_pos (a + b + c) 3 ltac:(lia) Hs). lia.
    - pose proof (Z.rem_bound_pos_neg (a + b + c) 3 ltac:(lia) ltac:(lia)). lia. }
  split; [done|]. split; split; intros; lia.
Qed.

(** C2: from the constructor's defaults, whatever the histories seen by
    the successive controller calls, the bounds stay 2 and 16 and the count
    stays within them. *)
Theorem controller_calls_bounds (now : Z) (url filename : string)
    (hs : list (list Duration)) :
  let d := controller_calls hs (NewAdaptiveDownloader now url filename) in
  MinConnections d = 2 /\ MaxConnections d = 16 /\
  2 <= CurrentConnections d <= 16.
Proof.
  unfold controller_calls.
  assert (Hinit : let d := NewAdaptiveDownloader now url filename in
            MinConnections d = 2 /\ MaxConnections d = 16 /\
            2 <= CurrentConnections d <= 16) by (simpl; lia).
  revert Hinit. generalize (NewAdaptiveDownloader now url filename).
  induction hs as [|ts hs IH]; intros d Hd; [exact Hd|].
  simpl. apply IH. simpl in Hd. destruct Hd as (Hmin & Hmax & Hcur).
  pose proof (calculateOptimalConnections_bounds (with_history ts d)) as Hb.
  simpl in Hb. rewrite Hmin, Hmax in Hb.
  destruct Hb as (H1 & H2 & H3).
  - unfold connections_in_range. simpl. int64_lia.
  - lia.
  - simpl. lia.
Qed.

(** ** The chunk planner *)

Section Planner.

Variables size L : Z.
Hypothesis HS : 0 <= size.
Hypothesis HL : 0 < L.

Local Abbreviation n := (segment_count size L).

Lemma segment_count_nonneg : 0 <= n.
Proof. unfold segment_count. apply Z.div_pos; lia. Qed.

Lemma segment_count_below (k : Z) : 0 <= k < n -> k * L < size.
Proof.
  unfold segment_count. intros Hk.
  pose proof (Z.mul_div_le (size + L - 1) L HL). nia.
Qed.

Lemma segment_count_reaches : size <= n * L.
Proof.
  unfold segment_count.
  pose proof (Z.mod_pos_bound (size + L - 1) L HL).
  pose proof (Z.div_mod (size + L - 1) L ltac:(lia)). nia.
Qed.

Lemma planned_upto_snoc (k : Z) :
  0 <= k ->
  planned_upto size L (k + 1)
  = planned_upto size L k ++ [mkChunk (k * L) (Z.min (k * L + L - 1) (size - 1)) k].
Proof.
  intros Hk. unfold planned_upto.
  rewrite seqZ_app by lia. rewrite fmap_app.
  rewrite (seqZ_cons (0 + k)) by lia. rewrite (seqZ_nil _ (Z.pred 1)) by lia. simpl.
  by replace (0 + k) with k by lia.
Qed.

Lemma planned_upto_length (k : Z) : length (planned_upto size L k) = Z.to_nat k.
Proof. unfold planned_upto. by rewrite length_fmap, length_seqZ. Qed.

Lemma planned_upto_lookup (m : Z) (k : nat) c :
  planned_upto size L m !! k = Some c <->
  Z.of_nat k < m /\
  c = mkChunk (Z.of_nat k * L) (Z.min (Z.of_nat k * L + L - 1) (size - 1)) (Z.of_nat k).
Proof.
  unfold planned_upto. rewrite list_lookup_fmap.
  destruct (seqZ 0 m !! k) as [z|] eqn:E; simpl.
  - apply lookup_seqZ in E as [-> E]. simpl. split.
    + intros [= <-]. split; [lia|done].
    + intros [_ ->]. done.
  - split; [done|]. intros [Hk _].
    rewrite lookup_seqZ_lt in E by lia. done.
Qed.

Hypothesis Hfit : n * L <= Int64.max_int.

Lemma planChunks_loop_run (fuel : nat) (k : Z) :
  0 <= k <= n -> (Z.to_nat (n - k) < fuel)%nat ->
  planChunks_loop fuel size L (k * L) (planned_upto size L k)
  = Some (planned_upto size L n).
Proof.
  revert k. induction fuel as [|fuel IH]; intros k Hk Hfuel; [lia|].
  simpl. destruct (Z.ltb_spec (k * L) size) as [Hlt|Hge].
  - assert (k < n) as Hkn.
    { destruct (Z.eq_dec k n) as [->|]; [|lia].
      pose proof segment_count_reaches. lia. }
    assert ((k + 1) * L <= n * L) by nia.
    assert (0 <= k * L) by nia.
    pose proof segment_count_reaches.
    rewrite (add_exact (k * L) L) by int64_lia.
    rewrite (sub_exact (k * L + L) 1) by int64_lia.
    rewrite (sub_exact size 1) by int64_lia.
    rewrite planned_upto_length, Z2Nat.id by lia.
    replace (if k * L + L - 1 >=? size then size - 1 else k * L + L - 1)
      with (Z.min (k * L + L - 1) (size - 1)).
    2:{ destruct (Z.geb_spec (k * L + L - 1) size); lia. }
    rewrite <- planned_upto_snoc by lia.
    replace (k * L + L) with ((k + 1) * L) by lia.
    apply IH; [lia|]. replace (n - (k + 1)) with (n - k - 1) by lia. lia.
  - assert (k = n) as ->; [|done].
    destruct (Z.eq_dec k n) as [->|]; [done|].
    pose proof (segment_count_below k ltac:(lia)). lia.
Qed.

Lemma planChunks_run (fuel : nat) :
  (Z.to_nat n < fuel)%nat -> planChunks fuel size L = Some (planned_upto size L n).
Proof.
  intros Hfuel. pose proof segment_count_nonneg.
  apply (planChunks_loop_run fuel 0); [lia|].
  by replace (n - 0) with n by lia.
Qed.

Lemma planned_well_planned : well_planned size L (planned_upto size L n).
Proof.
  pose proof segment_count_nonneg as Hn.
  pose proof segment_count_reaches as Hreach.
  split.
  - intros k c Hc. apply planned_upto_lookup in Hc as [_ ->]. done.
  - intros c Hc. apply list_elem_of_lookup in Hc as [k Hc].
    apply planned_upto_lookup in Hc as [Hk ->]. simpl.
    pose proof (segment_count_below (Z.of_nat k) ltac:(lia)). lia.
  - intros j k c c' Hc Hc' Hjk.
    apply planned_upto_lookup in Hc as [_ ->].
    apply planned_upto_lookup in Hc' as [_ ->]. simpl. nia.
  - intros k c c' Hc Hc'.
    apply planned_upto_lookup in Hc as [_ ->].
    apply planned_upto_lookup in Hc' as [Hk ->]. simpl.
    pose proof (segment_count_below (Z.of_nat ((k + 1)%nat)) ltac:(lia)). nia.
  - intros j k c c' Hc Hc' Hjk.
    apply planned_upto_lookup in Hc as [_ ->].
    apply planned_upto_lookup in Hc' as [_ ->]. simpl.
    destruct (Nat.lt_ge_cases j k); [left|right]; nia.
  - intros b. split.
    + intros Hb. set (k := b / L).
      assert (0 <= k) by (apply Z.div_pos; lia).
      pose proof (Z.mod_pos_bound b L HL).
      pose proof (Z.div_mod b L ltac:(lia)).
      assert (k < n) by (subst k; nia).
      exists (mkChunk (k * L) (Z.min (k * L + L - 1) (size - 1)) k). split.
      * apply list_elem_of_lookup. exists (Z.to_nat k).
        apply planned_upto_lookup. rewrite Z2Nat.id by lia. done.
      * simpl. subst k. lia.
    + intros (c & Hc & Hb). apply list_elem_of_lookup in Hc as [k Hc].
      apply planned_upto_lookup in Hc as [Hk ->]. simpl in Hb. nia.
  - intros k c Hc Hlen. rewrite planned_upto_length in Hlen.
    apply planned_upto_lookup in Hc as [Hk ->]. simpl.
    pose proof (segment_count_below (Z.of_nat ((k + 1)%nat)) ltac:(lia)). nia.
  - intros c Hc. rewrite last_lookup in Hc.
    rewrite planned_upto_length in Hc.
    apply planned_upto_lookup in Hc as [Hk ->]. simpl.
    assert (Z.of_nat (Nat.pred (Z.to_nat n)) = n - 1) as -> by lia.
    nia.
  - intros ->. unfold segment_count.
    rewrite Z.div_small by lia. done.
Qed.

End Planner.

(** C3 (as amended): for every total size [size >= 0] and segment length
    [L > 0] such that the first multiple of [L] at or above [size] fits in
    an [int64], the planning loop terminates and its plan is ordered by
    increasing start, contiguous, non-overlapping, covers exactly
    [0, size), has segments of length [L] except possibly the last (which
    ends at [size - 1]), is indexed 0, 1, 2, ... and is empty for
    [size = 0]. *)
Theorem planChunks_correct (size L : Z) :
  0 <= size -> 0 < L ->
  segment_count size L * L <= Int64.max_int ->
  exists l,
    (forall fuel, (Z.to_nat (segment_count size L) < fuel)%nat ->
                  planChunks fuel size L = Some l) /\
    well_planned size L l.
Proof.
  intros HS HL Hfit. exists (planned_upto size L (segment_count size L)).
  split.
  - intros fuel Hfuel. by apply planChunks_run.
  - by apply planned_well_planned.
Qed.

Lemma planChunks_correct_witness :
  exists l,
    planChunks 12 (10 * 1024 * 1024) (1024 * 1024) = Some l /\
    length l = 10%nat /\
    well_planned (10 * 1024 * 1024) (1024 * 1024) l.
Proof.
  destruct (planChunks_correct (10 * 1024 * 1024) (1024 * 1024))
    as (l & Hrun & Hwp).
  - lia.
  - lia.
  - vm_compute. discriminate.
  - exists l. split; [|split; [|exact Hwp]].
    + apply Hrun. vm_compute. lia.
    + specialize (Hrun 12%nat ltac:(vm_compute; lia)).
      vm_compute in Hrun. injection Hrun as <-. reflexivity.
Defined.

Lemma planChunks_loop_unfold (fuel : nat) (fileSize chunkSize i : Z) chunks :
  planChunks_loop (S fuel) fileSize chunkSize i chunks
  = if i <? fileSize then
      planChunks_loop fuel fileSize chunkSize (Int64.add i chunkSize)
        (chunks ++ [mkChunk i
           (if Int64.sub (Int64.add i chunkSize) 1 >=? fileSize
            then Int64.sub fileSize 1
            else Int64.sub (Int64.add i chunkSize) 1)
           (Z.of_nat (length chunks))])
    else Some chunks.
Proof. reflexivity. Qed.

Lemma wrap_multiple (a : Z) :
  exists b, Int64.wrap (a * 2 ^ 20) = b * 2 ^ 20.
Proof.
  unfold Int64.wrap. rewrite Z.mod_eq by lia.
  exists (a - 2 ^ 44 * ((a * 2 ^ 20 + 2 ^ 63) / 2 ^ 64)). lia.
Qed.

Lemma planChunks_loop_spins (fuel : nat) (a : Z) chunks :
  Int64.in_range (a * 2 ^ 20) ->
  planChunks_loop fuel (2 ^ 63 - 1) (1024 * 1024) (a * 2 ^ 20) chunks = None.
Proof.
  revert a chunks. induction fuel as [|fuel IH]; intros a chunks Ha; [done|].
  rewrite planChunks_loop_unfold.
  assert ((a * 2 ^ 20 <? 2 ^ 63 - 1) = true) as -> by (apply Z.ltb_lt; int64_lia).
  unfold Int64.add at 1.
  replace (a * 2 ^ 20 + 1024 * 1024) with ((a + 1) * 2 ^ 20) by lia.
  destruct (wrap_multiple (a + 1)) as [b Hb].
  pose proof (wrap_in_range ((a + 1) * 2 ^ 20)) as Hr.
  rewrite Hb in Hr |- *. by apply IH.
Qed.

(** The claim as worded covers every [size >= 0].  A probe answer of
    [Content-Length: 9223372036854775807] with the constructor's 1 MiB
    segments makes [i += d.ChunkSize] wrap past [2^63 - 1]: [i] stays a
    multiple of [2^20], hence below the size, and the loop yields no plan
    however long it runs. *)
Lemma planChunks_overflow_counterexample :
  let d := NewAdaptiveDownloader 0 "http://h/f" "f" in
  let size := 2 ^ 63 - 1 in
  0 <= size /\ Int64.in_range size /\ 0 < ChunkSize d /\
  forall fuel, planChunks fuel size (ChunkSize d) = None.
Proof.
  cbv zeta. split; [lia|]. split; [int64_lia|]. split; [simpl; lia|].
  intros fuel. unfold planChunks. simpl ChunkSize.
  apply (planChunks_loop_spins fuel 0). int64_lia.
Qed.

(** The same wrap-around on a short cycle: with [L = 2^62], [i] runs
    through 0, 2^62, -2^63, -2^62 and back to 0. *)
Lemma planChunks_overflow_cycle (fuel : nat) (i : Z) chunks :
  i = 0 \/ i = 2 ^ 62 \/ i = - 2 ^ 63 \/ i = - 2 ^ 62 ->
  planChunks_loop fuel (2 ^ 63 - 1) (2 ^ 62) i chunks = None.
Proof.
  revert i chunks. induction fuel as [|fuel IH]; intros i chunks Hi; [done|].
  rewrite planChunks_loop_unfold.
  assert ((i <? 2 ^ 63 - 1) = true) as -> by (apply Z.ltb_lt; lia).
  apply IH. destruct Hi as [-> | [-> | [-> | ->]]]; vm_compute; auto.
Qed.

(** ** The capability probe *)




(** ** The segment fetcher *)

Lemma copyChunk_ChunkTimes body : forall offset w st,
  ChunkTimes (copyChunk body offset w st).1.2 = ChunkTimes st.
Proof.
  induction body as [|step body IH]; intros offset w st; [done|].
  simpl. destruct (0 <? _); destruct (rd_err step); try destruct (wr_err step);
    simpl; try done; by rewrite IH.
Qed.

Lemma recent_snoc (ts : list Duration) (x : Duration) :
  recent (ts ++ [x]) = drop (length ts - 2) ts ++ [x].
Proof.
  unfold recent. rewrite length_app. simpl.
  replace (length ts + 1 - 3)%nat with (length ts - 2)%nat by lia.
  rewrite drop_app_le by lia. done.
Qed.

(** C10: whatever the request meets, [downloadChunk] returns with exactly
    one sample, its own duration, appended to the history, so that the
    controller's window is then the two most recent earlier samples
    followed by this one; a failed fetch does so too. *)
Theorem downloadChunk_records_duration (d : AdaptiveDownloader)
    (chunk : ChunkInfo) (w : World) (reply : FetchReply) (elapsed : Duration) :
  let d' := (downloadChunk d chunk w reply elapsed).1.1 in
  ChunkTimes (Stats d') = ChunkTimes (Stats d) ++ [elapsed] /\
  length (ChunkTimes (Stats d')) = S (length (ChunkTimes (Stats d))) /\
  recent (ChunkTimes (Stats d'))
  = drop (length (ChunkTimes (Stats d)) - 2) (ChunkTimes (Stats d)) ++ [elapsed].
Proof.
  cbv zeta.
  assert (ChunkTimes (Stats (downloadChunk d chunk w reply elapsed).1.1)
          = ChunkTimes (Stats d) ++ [elapsed]) as E.
  { unfold downloadChunk. destruct reply as [e|e|resp body]; simpl; try done.
    destruct (negb _); simpl; [done|].
    pose proof (copyChunk_ChunkTimes body (Start chunk)
                  (log_net (ReqGetRange (URL d) (Start chunk) (End chunk)) w)
                  (Stats d)) as H.
    destruct (copyChunk _ _ _ _) as [[w' st'] err]. simpl in *. by rewrite H. }
  rewrite E. split; [done|]. split.
  - rewrite length_app. simpl. lia.
  - apply recent_snoc.
Qed.

Lemma total_nonneg bufs : 0 <= total bufs.
Proof. induction bufs as [|b bufs IH]; simpl; lia. Qed.

Lemma total_app bufs1 bufs2 : total (bufs1 ++ bufs2) = total bufs1 + total bufs2.
Proof. induction bufs1 as [|b bufs1 IH]; simpl; lia. Qed.

Lemma delivered_nonempty body :
  Forall (fun b => (0 < length b)%nat) (delivered body).
Proof.
  induction body as [|step body IH]; simpl; [constructor|].
  apply Forall_app. split.
  - unfold has_bytes. destruct (Z.ltb_spec 0 (Z.of_nat (length (rd_data step))));
      [|constructor].
    constructor; [lia|constructor].
  - destruct (stops step); [constructor|done].
Qed.

Lemma positioned_length off bufs : length (positioned off bufs) = length bufs.
Proof. revert off. induction bufs as [|b bufs IH]; intros off; simpl; auto. Qed.

Lemma positioned_lookup bufs : forall off (i : nat) op,
  positioned off bufs !! i = Some op ->
  exists b, bufs !! i = Some b /\ op = OpWriteAt b (off + total (take i bufs)).
Proof.
  induction bufs as [|b bufs IH]; intros off i op H; [done|].
  destruct i as [|i]; simpl in *.
  - injection H as <-. exists b. split; [done|]. f_equal. lia.
  - apply IH in H as (b' & Hb' & ->). exists b'. split; [done|]. f_equal. lia.
Qed.

Lemma total_take_lt bufs (i j : nat) b :
  Forall (fun b => (0 < length b)%nat) bufs ->
  bufs !! i = Some b -> (i < j)%nat ->
  total (take i bufs) + Z.of_nat (length b) <= total (take j bufs).
Proof.
  intros Hne Hi Hij.
  rewrite <- (take_drop_middle bufs i b Hi) at 2.
  rewrite take_app_ge; rewrite length_take_le;
    try (apply lookup_lt_Some in Hi; lia).
  rewrite total_app.
  destruct (j - i)%nat as [|m] eqn:E; [lia|]. simpl.
  pose proof (total_nonneg (take m (drop (S i) bufs))). lia.
Qed.

Lemma total_take_le bufs (i : nat) : total (take i bufs) <= total bufs.
Proof.
  rewrite <- (take_drop i bufs) at 2. rewrite total_app.
  pose proof (total_nonneg (drop i bufs)). lia.
Qed.

(** The writes of the read loop of [downloadChunk]. *)
Lemma copyChunk_writes body : forall offset w st,
  Int64.min_int <= offset ->
  offset + total (delivered body) <= Int64.max_int ->
  exists calls,
    fs (copyChunk body offset w st).1.1 = fs w ++ calls /\
    net (copyChunk body offset w st).1.1 = net w /\
    call_op <$> calls = positioned offset (delivered body).
Proof.
  induction body as [|step body IH]; intros offset w st Hlo Hhi.
  { exists []. simpl. by rewrite app_nil_r. }
  pose proof (total_nonneg (delivered body)) as Hnn.
  simpl in Hhi |- *. unfold stops, write_fails, has_bytes in *.
  destruct (Z.ltb_spec 0 (Z.of_nat (length (rd_data step)))) as [Hn|Hn].
  - destruct (wr_err step) as [e|] eqn:Ew; simpl in *.
    { eexists [_]. simpl. eauto. }
    destruct (rd_err step) eqn:Er; simpl in *.
    + rewrite (add_exact offset) by int64_lia.
      edestruct (IH (offset + Z.of_nat (length (rd_data step)))
                   (log_file (mkCall (OpWriteAt (rd_data step) offset) None) w)
                   (add_bytes (Z.of_nat (length (rd_data step))) st))
        as (calls & Hfs & Hnet & Hops); [lia|lia|].
      exists (mkCall (OpWriteAt (rd_data step) offset) None :: calls).
      rewrite Hfs, Hnet. simpl. rewrite <- app_assoc. simpl.
      split; [done|]. split; [done|]. f_equal. exact Hops.
    + eexists [_]. simpl. eauto.
    + eexists [_]. simpl. eauto.
  - destruct (rd_err step) eqn:Er; simpl in *.
    + apply IH; lia.
    + exists []. by rewrite app_nil_r.
    + exists []. by rewrite app_nil_r.
Qed.

(** C6 (as amended): whatever the request meets, the fetch makes exactly
    one positioned write per buffer delivered to its loop, nothing else on
    the file; the writes start at the segment's start and their offsets
    strictly increase, each buffer landing right behind the one before; all
    bytes written lie in [[start, start + N)] for [N] the number of bytes
    the body delivered, hence within [[start, end]] whenever the server
    sends no more than the [end - start + 1] bytes asked for. *)
Theorem downloadChunk_writes (d : AdaptiveDownloader) (chunk : ChunkInfo)
    (w : World) (reply : FetchReply) (elapsed : Duration) :
  Int64.min_int <= Start chunk ->
  Start chunk + total (delivered_by reply) <= Int64.max_int ->
  let w' := (downloadChunk d chunk w reply elapsed).1.2 in
  let bufs := delivered_by reply in
  exists calls,
    fs w' = fs w ++ calls /\
    call_op <$> calls = positioned (Start chunk) bufs /\
    length calls = length bufs /\
    (forall c, head calls = Some c ->
       exists b, call_op c = OpWriteAt b (Start chunk)) /\
    (forall (i j : nat) c c' b off b' off',
       calls !! i = Some c -> calls !! j = Some c' -> (i < j)%nat ->
       call_op c = OpWriteAt b off -> call_op c' = OpWriteAt b' off' ->
       off + Z.of_nat (length b) <= off' /\ off < off') /\
    (forall c, c ∈ calls ->
       written_range c (Start chunk) (Start chunk + total bufs)) /\
    (total bufs <= End chunk - Start chunk + 1 ->
     forall c, c ∈ calls -> written_range c (Start chunk) (End chunk + 1)).
Proof.
  intros Hlo Hhi w' bufs.
  assert (exists calls, fs w' = fs w ++ calls /\
            call_op <$> calls = positioned (Start chunk) bufs)
    as (calls & Hfs & Hops).
  { subst w' bufs. unfold downloadChunk, delivered_by in *.
    destruct reply as [e|e|resp body]; simpl.
    - exists []. by rewrite app_nil_r.
    - exists []. by rewrite app_nil_r.
    - destruct (StatusCode resp =? StatusPartialContent); simpl.
      + destruct (copyChunk_writes body (Start chunk)
                    (log_net (ReqGetRange (URL d) (Start chunk) (End chunk)) w)
                    (Stats d) Hlo Hhi) as (calls & Hfs & _ & Hops).
        destruct (copyChunk _ _ _ _) as [[w1 st1] err1]. simpl in *. eauto.
      + exists []. by rewrite app_nil_r. }
  assert (Hne : Forall (fun b => (0 < length b)%nat) bufs).
  { subst bufs. unfold delivered_by. destruct reply as [e|e|resp body];
      try constructor.
    destruct (_ =? _); [apply delivered_nonempty|constructor]. }
  assert (Hat : forall (i : nat) c b off,
            calls !! i = Some c -> call_op c = OpWriteAt b off ->
            bufs !! i = Some b /\ off = Start chunk + total (take i bufs)).
  { intros i c b off Hc Hop.
    assert ((call_op <$> calls) !! i = Some (OpWriteAt b off)) as Hi
      by (by rewrite list_lookup_fmap, Hc; simpl; rewrite Hop).
    rewrite Hops in Hi. apply positioned_lookup in Hi as (b0 & Hb0 & [= -> ->]).
    done. }
  assert (Hop : forall (i : nat) c, calls !! i = Some c ->
            exists b off, call_op c = OpWriteAt b off).
  { intros i c Hc.
    assert ((call_op <$> calls) !! i = Some (call_op c)) as Hi
      by (by rewrite list_lookup_fmap, Hc).
    rewrite Hops in Hi. apply positioned_lookup in Hi as (b0 & _ & ->). eauto. }
  assert (Hin : forall c, c ∈ calls ->
            written_range c (Start chunk) (Start chunk + total bufs)).
  { intros c Hc b off Hcop. apply list_elem_of_lookup in Hc as [i Hc].
    destruct (Hat i c b off Hc Hcop) as [Hb ->].
    pose proof (total_nonneg (take i bufs)).
    pose proof (total_take_lt bufs i (S i) b Hne Hb ltac:(lia)).
    pose proof (total_take_le bufs (S i)). lia. }
  exists calls. split; [done|]. split; [done|]. split.
  { rewrite <- (length_fmap call_op), Hops. apply positioned_length. }
  split; [|split; [|split]].
  - intros c Hc. destruct calls as [|c0 calls]; [done|]. injection Hc as ->.
    destruct (Hop 0%nat c eq_refl) as (b & off & Hcop).
    destruct (Hat 0%nat c b off eq_refl Hcop) as [_ ->].
    exists b. rewrite Hcop. f_equal. simpl. lia.
  - intros i j c c' b off b' off' Hc Hc' Hij Hcop Hcop'.
    destruct (Hat i c b off Hc Hcop) as [Hb ->].
    destruct (Hat j c' b' off' Hc' Hcop') as [Hb' ->].
    pose proof (total_take_lt bufs i j b Hne Hb Hij).
    assert (0 < length b)%nat.
    { eapply (Forall_lookup_1 _ _ _ _ Hne Hb). }
    lia.
  - exact Hin.
  - intros Hfit c Hc b off Hcop.
    destruct (Hin c Hc b off Hcop). lia.
Qed.

Lemma downloadChunk_writes_witness :
  let d := NewAdaptiveDownloader 0 "http://h/f" "f" in
  let reply :=
    Responds (mkResponse 206 "206 Partial Content" ∅)
      [mkStep [Byte.x61; Byte.x62] ReadNil None; mkStep [Byte.x63] ReadEOF None] in
  exists calls,
    fs (downloadChunk d (mkChunk 10 12 0) (mkWorld [] []) reply 1).1.2 = calls /\
    call_op <$> calls = [OpWriteAt [Byte.x61; Byte.x62] 10; OpWriteAt [Byte.x63] 12] /\
    forall c, c ∈ calls -> written_range c 10 13.
Proof.
  cbv zeta.
  destruct (downloadChunk_writes (NewAdaptiveDownloader 0 "http://h/f" "f")
              (mkChunk 10 12 0) (mkWorld [] [])
              (Responds (mkResponse 206 "206 Partial Content" ∅)
                 [mkStep [Byte.x61; Byte.x62] ReadNil None;
                  mkStep [Byte.x63] ReadEOF None]) 1)
    as (calls & Hfs & Hops & _ & _ & _ & _ & Hin).
  - vm_compute. discriminate.
  - vm_compute. discriminate.
  - exists calls. split; [exact Hfs|]. split; [exact Hops|].
    apply Hin. vm_compute. discriminate.
Defined.

(** The claim as worded confines the writes to [[start, end]] always.  A
    server answering 206 with 20 bytes to a request for bytes 0-9 has them
    all written: the write covers offsets 0 to 19. *)
Lemma downloadChunk_confinement_counterexample :
  let d := NewAdaptiveDownloader 0 "http://h/f" "f" in
  let chunk := mkChunk 0 9 0 in
  let data := replicate 20 Byte.x78 in
  let reply := Responds (mkResponse 206 "206 Partial Content" ∅)
                 [mkStep data ReadEOF None] in
  let r := downloadChunk d chunk (mkWorld [] []) reply 1 in
  fs r.1.2 = [mkCall (OpWriteAt data 0) None] /\
  r.2 = None /\
  End chunk < 0 + Z.of_nat (length data) - 1.
Proof. vm_compute. split; [reflexivity|]. split; reflexivity. Qed.

(** ** The fallback single-stream downloader *)

Lemma copyStream_writes body : forall w st,
  exists calls,
    fs (copyStream body w st).1.1 = fs w ++ calls /\
    net (copyStream body w st).1.1 = net w /\
    call_op <$> calls = OpWrite <$> delivered body.
Proof.
  induction body as [|step body IH]; intros w st.
  { exists []. simpl. by rewrite app_nil_r. }
  simpl. unfold stops, write_fails, has_bytes.
  destruct (0 <? Z.of_nat (length (rd_data step))).
  - destruct (wr_err step) as [e|]; simpl.
    { eexists [_]. simpl. eauto. }
    destruct (rd_err step); simpl.
    + edestruct (IH (log_file (mkCall (OpWrite (rd_data step)) None) w)
                   (add_bytes (Z.of_nat (length (rd_data step))) st))
        as (calls & Hfs & Hnet & Hops).
      exists (mkCall (OpWrite (rd_data step)) None :: calls).
      rewrite Hfs, Hnet. simpl. rewrite <- app_assoc. simpl.
      split; [done|]. split; [done|]. f_equal. exact Hops.
    + eexists [_]. simpl. eauto.
    + eexists [_]. simpl. eauto.
  - destruct (rd_err step); simpl.
    + apply IH.
    + exists []. by rewrite app_nil_r.
    + exists []. by rewrite app_nil_r.
Qed.

Lemma copyStream_succeeds body : forall w st,
  (copyStream body w st).2 = None <-> succeeds body = true.
Proof.
  induction body as [|step body IH]; intros w st; [done|].
  simpl. unfold write_fails, has_bytes.
  destruct (0 <? Z.of_nat (length (rd_data step)));
    destruct (wr_err step); destruct (rd_err step); simpl;
    try apply IH; try done.
Qed.

Lemma written_succeeds body : succeeds body = true -> written body = delivered body.
Proof.
  induction body as [|step body IH]; [done|].
  simpl. unfold stops. destruct (write_fails step); [done|].
  destruct (rd_err step); simpl; intros H; try done.
  by rewrite IH.
Qed.

Lemma written_le_delivered body : total (written body) <= total (delivered body).
Proof.
  induction body as [|step body IH]; simpl; [lia|].
  unfold stops. pose proof (total_nonneg (delivered body)).
  destruct (write_fails step); simpl.
  - pose proof (total_nonneg (if has_bytes step then [rd_data step] else [])).
    rewrite app_nil_r. lia.
  - rewrite !total_app. destruct (rd_data step), (rd_err step); simpl; lia.
Qed.

(** The counter of the read loop of [downloadSingleConnection]. *)
Lemma copyStream_bytes body : forall w st,
  0 <= BytesDownloaded st ->
  BytesDownloaded st + total (written body) <= Int64.max_int ->
  BytesDownloaded (copyStream body w st).1.2
  = BytesDownloaded st + total (written body).
Proof.
  induction body as [|step body IH]; intros w st Hlo Hhi; [simpl; lia|].
  pose proof (total_nonneg (written body)) as Hnn.
  simpl in Hhi |- *. unfold write_fails, has_bytes in *.
  destruct (Z.ltb_spec 0 (Z.of_nat (length (rd_data step)))) as [Hn|Hn].
  - destruct (wr_err step) as [e|]; simpl in *; [lia|].
    assert (BytesDownloaded (add_bytes (Z.of_nat (length (rd_data step))) st)
            = BytesDownloaded st + Z.of_nat (length (rd_data step))) as Hadd.
    { simpl. apply add_exact.
      destruct (rd_err step); simpl in Hhi; int64_lia. }
    destruct (rd_err step); simpl in *; try lia.
    rewrite IH; simpl; rewrite Hadd; lia.
  - destruct (rd_err step); simpl in *; try lia. by apply IH.
Qed.

(** C9: called on a downloader as [Download] hands it over (fresh from the
    constructor, [FileSize] set to whatever the probe found, [-1]
    included), with the file created and a 200 response, the fallback
    writes every delivered buffer, in order, with one sequential write
    each and nothing else; the counter ends at the total length of the
    buffers whose write succeeded; and when the loop ends without error
    these are all the buffers and the reported byte count is the number of
    bytes the body delivered. *)
Theorem downloadSingleConnection_accounting (now advertised : Z)
    (url filename : string) (w : World) (env : SingleEnv)
    (resp : Response) (body : list BodyStep) :
  se_create env = None ->
  se_get env = inr (resp, body) ->
  StatusCode resp = StatusOK ->
  total (delivered body) <= Int64.max_int ->
  let d := set_FileSize advertised (NewAdaptiveDownloader now url filename) in
  let r := downloadSingleConnection d w env in
  (exists calls,
     fs r.1.1.2 = fs w ++ mkCall (OpCreate filename) None :: calls /\
     call_op <$> calls = OpWrite <$> delivered body) /\
  BytesDownloaded (Stats r.1.1.1) = total (written body) /\
  (succeeds body = true ->
     r.1.2 = None /\
     written body = delivered body /\
     r.2 = Some (total (delivered body))) /\
  (succeeds body = false -> r.1.2 <> None /\ r.2 = None).
Proof.
  intros Hcreate Hget Hst Hhi d r. subst r.
  unfold downloadSingleConnection. rewrite Hcreate, Hget, Hst. simpl negb.
  cbv iota.
  set (w2 := log_net (ReqGet (URL d)) _).
  pose proof (copyStream_writes body w2 (Stats d)) as (calls & Hfs & _ & Hops).
  pose proof (copyStream_succeeds body w2 (Stats d)) as Hsucc.
  pose proof (copyStream_bytes body w2 (Stats d)) as Hbytes.
  destruct (copyStream body w2 (Stats d)) as [[w3 st] err]. simpl in *.
  pose proof (written_le_delivered body) as Hle.
  specialize (Hbytes ltac:(lia) ltac:(lia)).
  split; [|split; [|split]].
  - exists calls. split; [|done].
    destruct err; simpl; rewrite Hfs; by rewrite <- app_assoc.
  - destruct err; simpl; lia.
  - intros Hs. apply Hsucc in Hs as Herr. subst err. simpl.
    rewrite (written_succeeds body Hs) in Hbytes |- *.
    rewrite Hbytes. split; [done|]. split; [done|]. f_equal; lia.
  - intros Hs. destruct err as [e|]; simpl; [done|].
    destruct Hsucc as [Hsucc _]. rewrite Hsucc in Hs; done.
Qed.

Lemma downloadSingleConnection_accounting_witness :
  let resp := mkResponse 200 "200 OK" (<["Content-Length" := ["7"]]> ∅) in
  let body := [mkStep [Byte.x61; Byte.x62] ReadNil None;
               mkStep [] ReadNil None;
               mkStep [Byte.x63] ReadEOF None] in
  let d := set_FileSize 7 (NewAdaptiveDownloader 0 "http://h/f" "f") in
  (downloadSingleConnection d (mkWorld [] [])
     (mkSingleEnv None (inr (resp, body)))).2 = Some 3.
Proof.
  cbv zeta.
  destruct (downloadSingleConnection_accounting 0 7 "http://h/f" "f"
              (mkWorld [] [])
              (mkSingleEnv None
                 (inr (mkResponse 200 "200 OK" (<["Content-Length" := ["7"]]> ∅),
                       [mkStep [Byte.x61; Byte.x62] ReadNil None;
                        mkStep [] ReadNil None;
                        mkStep [Byte.x63] ReadEOF None])))
              (mkResponse 200 "200 OK" (<["Content-Length" := ["7"]]> ∅))
              [mkStep [Byte.x61; Byte.x62] ReadNil None;
               mkStep [] ReadNil None;
               mkStep [Byte.x63] ReadEOF None])
    as (_ & _ & Hok & _).
  - reflexivity.
  - reflexivity.
  - reflexivity.
  - vm_compute. discriminate.
  - apply Hok. reflexivity.
Defined.

(** ** The worker pool *)

Lemma tally_insert (f : worker -> nat) (ws : list worker) (k : nat) x y :
  ws !! k = Some x ->
  (tally f (<[k := y]> ws) + f x = tally f ws + f y)%nat.
Proof.
  revert k. induction ws as [|z ws IH]; intros k Hk; [done|].
  destruct k as [|k]; simpl in *.
  - injection Hk as ->. lia.
  - specialize (IH k Hk). lia.
Qed.

Lemma tally_app (f : worker -> nat) (ws1 ws2 : list worker) :
  tally f (ws1 ++ ws2) = (tally f ws1 + tally f ws2)%nat.
Proof. induction ws1 as [|x ws1 IH]; simpl; [done|]. rewrite IH. lia. Qed.

Lemma run_pool_app acts1 acts2 p :
  run_pool (acts1 ++ acts2) p
  = ((run_pool acts2 (run_pool acts1 p).1).1,
     (run_pool acts1 p).2 ++ (run_pool acts2 (run_pool acts1 p).1).2).
Proof.
  revert p. induction acts1 as [|a acts1 IH]; intros p; cbn [run_pool app].
  - simpl. by destruct (run_pool acts2 p).
  - destruct (pool_step a p) as [p1 ev1]. rewrite IH.
    destruct (run_pool acts1 p1) as [p2 ev2]. simpl.
    destruct (run_pool acts2 p2) as [p3 ev3]. simpl. by rewrite app_assoc.
Qed.

Lemma run_pool_cons a acts p :
  run_pool (a :: acts) p
  = ((run_pool acts (pool_step a p).1).1,
     (pool_step a p).2 ++ (run_pool acts (pool_step a p).1).2).
Proof.
  cbn [run_pool]. destruct (pool_step a p) as [p1 ev1]. simpl.
  by destruct (run_pool acts p1) as [p2 ev2].
Qed.

Lemma pool_step_cases a p : step_case a p (pool_step a p).
Proof.
  destruct a as [|k|k reply elapsed]; simpl.
  - destruct (spawning p) eqn:Es; [|constructor].
    destruct (Z.ltb_spec (Z.of_nat (length (workers p)))
                (CurrentConnections (pool_d p))).
    + by apply case_spawn.
    + by apply case_wait.
  - destruct (workers p !! k) as [[| | |]|] eqn:Ek; try constructor.
    destruct (chunkChan p) as [|c queue] eqn:Eq.
    + by apply (case_leave _ _ k).
    + by apply (case_dispatch _ _ k c queue).
  - destruct (workers p !! k) as [[|c| |]|] eqn:Ek; try constructor.
    destruct (downloadChunk (pool_d p) c (pool_w p) reply elapsed)
      as [[d' w'] [e|]] eqn:Ed.
    + destruct (Nat.ltb_spec (length (errChan p)) (errCap p)).
      * by eapply case_fail.
      * by eapply case_block.
    + by eapply case_complete.
Qed.

(** The error channel has a slot as soon as a worker exists: the first
    worker is started only if the count the channel was sized with is
    positive. *)
Lemma pool_ok_slot p k x :
  pool_ok p -> workers p !! k = Some x -> (0 < errCap p)%nat.
Proof.
  intros Hok Hk. destruct (ok_slot p Hok) as [Hnil|]; [|done].
  by rewrite Hnil in Hk.
Qed.

Lemma insert_not_nil (ws : list worker) (k : nat) x y :
  ws !! k = Some x -> <[k := y]> ws <> [].
Proof.
  intros Hk Hnil. apply (f_equal length) in Hnil.
  rewrite length_insert in Hnil. apply lookup_lt_Some in Hk.
  simpl in Hnil. lia.
Qed.

Lemma pool_step_ok a p : pool_ok p -> pool_ok (pool_step a p).1.
Proof.
  intros Hok. pose proof Hok as [Hsent Hcap Hblk Hnone Hslot].
  destruct (pool_step_cases a p)
    as [|k _ Hk _|k c queue _ Hk _|k c reply elapsed d' w' e _ Hk _ Hlt
        |k c reply elapsed d' w' e _ Hk _ Hge|k c reply elapsed d' w' _ Hk _
        |_ Hs Hlt|_ Hs Hge];
    simpl; try done.
  - pose proof (tally_insert is_live _ k _ Exited Hk) as Ht. simpl in Ht.
    pose proof (pool_ok_slot p k _ Hok Hk).
    split; simpl; rewrite ?length_insert; [lia|done| | |by right].
    + destruct Hblk; [left; by apply Forall_insert|by right].
    + intros Hnil. by destruct (insert_not_nil _ _ _ _ Hk Hnil).
  - pose proof (tally_insert is_live _ k _ (Busy c) Hk) as Ht. simpl in Ht.
    pose proof (pool_ok_slot p k _ Hok Hk).
    split; simpl; rewrite ?length_insert; [lia|done| | |by right].
    + destruct Hblk; [left; by apply Forall_insert|by right].
    + intros Hnil. by destruct (insert_not_nil _ _ _ _ Hk Hnil).
  - pose proof (tally_insert is_live _ k _ Exited Hk) as Ht. simpl in Ht.
    pose proof (pool_ok_slot p k _ Hok Hk).
    split; simpl; rewrite ?length_insert, ?length_app; simpl;
      [lia|lia| | |by right].
    + destruct Hblk; [left; by apply Forall_insert|by right].
    + intros Hnil. by destruct (insert_not_nil _ _ _ _ Hk Hnil).
  - pose proof (tally_insert is_live _ k _ Exited Hk) as Ht. simpl in Ht.
    pose proof (tally_insert is_live _ k _
                  (Blocked (ErrChunk (Index c) e)) Hk) as Ht'. simpl in Ht'.
    pose proof (pool_ok_slot p k _ Hok Hk).
    split; simpl; rewrite ?length_insert; [lia|done|right; lia| |by right].
    intros Hnil. by destruct (insert_not_nil _ _ _ _ Hk Hnil).
  - pose proof (tally_insert is_live _ k _ Idle Hk) as Ht. simpl in Ht.
    pose proof (pool_ok_slot p k _ Hok Hk).
    split; simpl; rewrite ?length_insert; [lia|done| | |by right].
    + destruct Hblk; [left; by apply Forall_insert|by right].
    + intros Hnil. by destruct (insert_not_nil _ _ _ _ Hk Hnil).
  - split; simpl; rewrite ?tally_app, ?length_app; simpl; [lia|done| | |].
    + destruct Hblk; [left|right; lia].
      apply Forall_app. split; [done|]. by apply Forall_singleton.
    + intros Hnil. by destruct (workers p).
    + right. destruct Hslot as [Hnil|]; [|done].
      destruct (Hnone Hnil) as [-> _]. rewrite Hnil in Hlt. simpl in Hlt. lia.
  - split; simpl; try done.
    intros Hnil. destruct (Hnone Hnil) as [Hc _]. split; [done|].
    intros _. rewrite Hnil in Hge. simpl in Hge. lia.
Qed.

Lemma run_pool_ok acts : forall p, pool_ok p -> pool_ok (run_pool acts p).1.
Proof.
  induction acts as [|a acts IH]; intros p Hp; [done|].
  rewrite run_pool_cons. simpl. apply IH. by apply pool_step_ok.
Qed.

Lemma start_pool_ok d w chunks : pool_ok (start_pool d w chunks).
Proof. split; simpl; [lia|lia|by left|done|by left]. Qed.


(** A worker that has left or is stuck stays so and does nothing more. *)
Lemma pool_step_gone a p k x :
  workers p !! k = Some x -> gone x ->
  workers (pool_step a p).1 !! k = Some x /\
  forall ev, ev ∈ (pool_step a p).2 -> event_worker ev <> k.
Proof.
  intros Hk Hx.
  assert (forall k' y z, workers p !! k' = Some y -> ~ gone y ->
            <[k' := z]> (workers p) !! k = Some x /\ k' <> k) as Hother.
  { intros k' y z Hk' Hy. destruct (decide (k' = k)) as [->|Hne].
    - rewrite Hk in Hk'. injection Hk' as ->. done.
    - by rewrite list_lookup_insert_ne. }
  destruct (pool_step_cases a p)
    as [|k' _ Hk' _|k' c queue _ Hk' _|k' c reply elapsed d' w' e _ Hk' _ _
        |k' c reply elapsed d' w' e _ Hk' _ _|k' c reply elapsed d' w' _ Hk' _
        |_ _ _|_ _ _];
    simpl.
  - split; [done|]. intros ev Hev. by apply elem_of_nil in Hev.
  - destruct (Hother k' Idle Exited Hk' ltac:(auto)) as [H1 H2].
    split; [done|]. intros ev ->%list_elem_of_singleton. done.
  - destruct (Hother k' Idle (Busy c) Hk' ltac:(auto)) as [H1 H2].
    split; [done|]. intros ev ->%list_elem_of_singleton. done.
  - destruct (Hother k' (Busy c) Exited Hk' ltac:(auto)) as [H1 H2].
    split; [done|]. intros ev ->%list_elem_of_singleton. done.
  - destruct (Hother k' (Busy c) (Blocked (ErrChunk (Index c) e)) Hk'
                ltac:(auto)) as [H1 H2].
    split; [done|]. intros ev ->%list_elem_of_singleton. done.
  - destruct (Hother k' (Busy c) Idle Hk' ltac:(auto)) as [H1 H2].
    split; [done|]. intros ev ->%list_elem_of_singleton. done.
  - split; [|intros ev Hev; by apply elem_of_nil in Hev].
    rewrite lookup_app_l; [done|]. by apply lookup_lt_Some in Hk.
  - split; [done|]. intros ev Hev. by apply elem_of_nil in Hev.
Qed.

Lemma run_pool_gone acts : forall p k x,
  workers p !! k = Some x -> gone x ->
  workers (run_pool acts p).1 !! k = Some x /\
  forall ev, ev ∈ (run_pool acts p).2 -> event_worker ev <> k.
Proof.
  induction acts as [|a acts IH]; intros p k x Hk Hx.
  - split; [done|]. intros ev Hev. by apply elem_of_nil in Hev.
  - rewrite run_pool_cons. simpl.
    destruct (pool_step_gone a p k x Hk Hx) as [Hk1 Hev1].
    destruct (IH (pool_step a p).1 k x Hk1 Hx) as [Hk2 Hev2].
    split; [done|]. intros ev [Hev|Hev]%elem_of_app; auto.
Qed.







(** Every event uses up one unit of the measure, and the measure rises
    only by one for each worker started. *)
Lemma pool_step_measure a p :
  (length (pool_step a p).2 + pool_measure (pool_step a p).1
   + length (workers p)
   <= pool_measure p + length (workers (pool_step a p).1))%nat.
Proof.
  unfold pool_measure.
  destruct (pool_step_cases a p)
    as [|k _ Hk Hq|k c queue _ Hk Hq|k c reply elapsed d' w' e _ Hk _ _
        |k c reply elapsed d' w' e _ Hk _ _|k c reply elapsed d' w' _ Hk _
        |_ _ _|_ _ _];
    simpl; rewrite ?length_insert, ?length_app, ?tally_app; simpl; try lia.
  - pose proof (tally_insert weight _ k _ Exited Hk) as Ht. simpl in Ht.
    rewrite Hq. simpl. lia.
  - pose proof (tally_insert weight _ k _ (Busy c) Hk) as Ht. simpl in Ht.
    rewrite Hq. simpl. lia.
  - pose proof (tally_insert weight _ k _ Exited Hk) as Ht. simpl in Ht. lia.
  - pose proof (tally_insert weight _ k _
                  (Blocked (ErrChunk (Index c) e)) Hk) as Ht.
    simpl in Ht. lia.
  - pose proof (tally_insert weight _ k _ Idle Hk) as Ht. simpl in Ht. lia.
Qed.


(** Once the spawn loop is over no worker is added. *)
Lemma pool_step_settled a p : settled p -> settled (pool_step a p).1.
Proof.
  intros [Hs Hle].
  destruct (pool_step_cases a p); unfold settled; simpl;
    rewrite ?length_insert; try done; congruence.
Qed.

Lemma run_pool_settled acts : forall p,
  settled p -> settled (run_pool acts p).1.
Proof.
  induction acts as [|a acts IH]; intros p Hp; [done|].
  rewrite run_pool_cons. simpl. apply IH. by apply pool_step_settled.
Qed.

(** With a slot for every worker started, nobody is stuck. *)
Lemma settled_unblocked p :
  pool_ok p -> (length (workers p) <= errCap p)%nat ->
  Forall not_blocked (workers p).
Proof. intros Hok Hle. destruct (ok_blocked p Hok); [done|lia]. Qed.

Lemma live_worker (ws : list worker) :
  forallb is_exited ws = false ->
  exists k x, ws !! k = Some x /\ is_exited x = false.
Proof.
  induction ws as [|x ws IH]; [done|]. simpl.
  destruct (is_exited x) eqn:Ex; simpl.
  - intros H. destruct (IH H) as (k & y & Hk & Hy). by exists (S k), y.
  - intros _. by exists 0%nat, x.
Qed.

Lemma stuck_worker (ws : list worker) (k : nat) x :
  ws !! k = Some x -> is_exited x = false -> forallb is_exited ws = false.
Proof.
  revert k. induction ws as [|y ws IH]; intros k Hk Hx; [done|].
  destruct k as [|k]; simpl in *.
  - injection Hk as ->. by rewrite Hx.
  - rewrite (IH k Hk Hx). by rewrite andb_false_r.
Qed.

(** No deadlock when the error channel has a slot for every worker that
    was started: some schedule lets all of them leave. *)
Lemma pool_can_finish (n : nat) : forall p,
  (pool_measure p <= n)%nat -> pool_ok p -> settled p ->
  exists acts, forallb is_exited (workers (run_pool acts p).1) = true /\
               spawning (run_pool acts p).1 = false.
Proof.
  induction n as [|n IH]; intros p Hn Hok Hset;
    destruct (forallb is_exited (workers p)) eqn:Hall;
    try (exists []; split; [done|apply Hset]);
    destruct (live_worker _ Hall) as (k & x & Hk & Hx);
    pose proof (Forall_lookup_1 _ _ _ _
                  (settled_unblocked p Hok (proj2 Hset)) Hk) as Hfree;
    assert (exists a, (pool_step a p).2 <> []
                      /\ length (workers (pool_step a p).1)
                         = length (workers p)) as (a & Ha & Hlen).
  1,3: destruct x as [|c|e|]; try done.
  1,3: exists (Take k); simpl; rewrite Hk;
       destruct (chunkChan p); simpl; by rewrite length_insert.
  1,2: exists (Finish k (DoFails (ErrExternal "")) 0); simpl; rewrite Hk; simpl;
       destruct (_ <? _)%nat; simpl; by rewrite length_insert.
  - pose proof (pool_step_measure a p).
    destruct (pool_step a p).2; [done|]. simpl in *. lia.
  - pose proof (pool_step_measure a p).
    destruct (IH (pool_step a p).1) as [acts Hacts];
      [destruct (pool_step a p).2; [done|]; simpl in *; lia
      |by apply pool_step_ok|by apply pool_step_settled|].
    exists (a :: acts). by rewrite run_pool_cons.
Qed.

(** ** Download *)

Lemma getFileSize_keeps d head :
  URL (getFileSize d head).1 = URL d /\
  Filename (getFileSize d head).1 = Filename d.
Proof.
  unfold getFileSize. destruct head as [e|resp]; [done|].
  destruct (negb _); [done|]. destruct (String.eqb _ _); [done|].
  by destruct (ParseInt _).
Qed.

(** The range path of [Download], once the probe, the creation, the
    pre-sizing and the planning have gone through. *)
Lemma Download_range_path d env d1 chunks :
  getFileSize d (env_head env) = (d1, (true, None)) ->
  env_create env = None ->
  env_truncate env = None ->
  planChunks (env_fuel env) (FileSize d1) (ChunkSize d1) = Some chunks ->
  0 <= CurrentConnections d1 ->
  Download d env
  = let r := run_pool (env_schedule env)
               (start_pool d1 (presized d1 env) chunks) in
    mkResult (pool_d r.1) (pool_w r.1) r.2 (pool_outcome r.1) None.
Proof.
  intros Hprobe Hcreate Htrunc Hplan Hcur.
  pose proof (getFileSize_keeps d (env_head env)) as [Hurl _].
  unfold Download, presized. rewrite Hprobe in Hurl |- *. simpl in Hurl.
  simpl negb. cbv iota. rewrite Hcreate, Htrunc, Hplan, Hurl.
  assert ((CurrentConnections d1 <? 0) = false) as -> by (apply Z.ltb_ge; lia).
  by destruct (run_pool _ _).
Qed.



(** A worker stuck on the error channel keeps the main goroutine in its
    wait for good. *)
Lemma pool_stuck_for_good acts p k e :
  workers p !! k = Some (Blocked e) ->
  pool_outcome (run_pool acts p).1 = Running.
Proof.
  intros Hk.
  destruct (run_pool_gone acts p k (Blocked e) Hk I) as [Hk' _].
  unfold pool_outcome. rewrite (stuck_worker _ k _ Hk' eq_refl).
  by rewrite andb_false_r.
Qed.


Lemma Download_range_run d env d1 chunks acts :
  getFileSize d (env_head env) = (d1, (true, None)) ->
  env_create env = None ->
  env_truncate env = None ->
  planChunks (env_fuel env) (FileSize d1) (ChunkSize d1) = Some chunks ->
  0 <= CurrentConnections d1 ->
  let r := Download d (with_schedule acts env) in
  let q := run_pool acts (start_pool d1 (presized d1 env) chunks) in
  res_events r = q.2 /\ res_outcome r = pool_outcome q.1.
Proof.
  intros Hprobe Hcreate Htrunc Hplan Hcur. cbv zeta.
  rewrite (Download_range_path d (with_schedule acts env) d1 chunks); done.
Qed.

(** C8: on the range path, a pre-sizing that fails makes [Download] return
    that error with nothing planned or dispatched: the only request made
    is the probe, the only file calls are the creation and the failed
    truncation, so no range request and no positioned write. *)
Theorem Download_presize_failure (d : AdaptiveDownloader) (env : Env)
    (d1 : AdaptiveDownloader) (e : error) :
  getFileSize d (env_head env) = (d1, (true, None)) ->
  env_create env = None ->
  env_truncate env = Some e ->
  let r := Download d env in
  res_outcome r = Returned (Some e) /\
  res_events r = [] /\
  res_d r = d1 /\
  net (res_w r) = [ReqHead (URL d)] /\
  fs (res_w r) = [mkCall (OpCreate (Filename d)) None;
                  mkCall (OpTruncate (FileSize d1)) (Some e)] /\
  (forall url first last, ReqGetRange url first last ∉ net (res_w r)) /\
  (forall c data off, c ∈ fs (res_w r) -> call_op c <> OpWriteAt data off).
Proof.
  intros Hprobe Hcreate Htrunc.
  pose proof (getFileSize_keeps d (env_head env)) as [_ Hname].
  rewrite Hprobe in Hname. simpl in Hname.
  unfold Download. rewrite Hprobe. simpl negb. cbv iota.
  rewrite Hcreate, Htrunc, Hname. simpl.
  repeat split; try done.
  - intros url first last Hin. apply list_elem_of_singleton in Hin. done.
  - intros c data off Hin Hop.
    apply elem_of_cons in Hin as [->|Hin]; [done|].
    apply list_elem_of_singleton in Hin as ->. done.
Qed.

Lemma Download_presize_failure_witness :
  let head := mkResponse 200 "200 OK"
                (<["Content-Length" := ["2097152"]]>
                   (<["Accept-Ranges" := ["bytes"]]> ∅)) in
  let env := mkEnv (inr head) (mkSingleEnv None (inl (ErrExternal "unused")))
               None (Some (ErrExternal "no space left on device")) 5
               [Take 0%nat; Finish 0%nat (DoFails (ErrExternal "refused")) 1] in
  let r := Download (NewAdaptiveDownloader 0 "http://h/f" "f") env in
  res_outcome r = Returned (Some (ErrExternal "no space left on device")) /\
  res_events r = [].
Proof.
  cbv zeta.
  destruct (Download_presize_failure
              (NewAdaptiveDownloader 0 "http://h/f" "f")
              (mkEnv (inr (mkResponse 200 "200 OK"
                             (<["Content-Length" := ["2097152"]]>
                                (<["Accept-Ranges" := ["bytes"]]> ∅))))
                 (mkSingleEnv None (inl (ErrExternal "unused")))
                 None (Some (ErrExternal "no space left on device")) 5
                 [Take 0%nat; Finish 0%nat (DoFails (ErrExternal "refused")) 1])
              (set_FileSize 2097152 (NewAdaptiveDownloader 0 "http://h/f" "f"))
              (ErrExternal "no space left on device"))
    as (Hout & Hev & _).
  - vm_compute. reflexivity.
  - reflexivity.
  - reflexivity.
  - split; [exact Hout|exact Hev].
Defined.

(** C5 (a defect of the code): a range request answered with a status
    other than 206 is meant to make [Download] fail, and it cannot succeed
    after one; but it need not return at all.  A file of eight segments,
    the downloader of [NewAdaptiveDownloader] (four connections, so four
    slots in [errChan]): the main goroutine has started three workers when
    these complete segments 1, 2 and 0 in a second each, which raises
    [CurrentConnections] to 5; the spawn loop, reading the field again,
    starts two more workers; all five then receive 200 to their range
    request.  Each fetch returns its error and writes nothing, four
    workers send theirs and return, the fifth is stuck on the full
    channel, and whatever is scheduled from there on [Download] stays in
    [wg.Wait()]. *)
Theorem non_partial_content_can_block :
  let head := mkResponse 200 "200 OK"
                (<["Content-Length" := ["8388608"]]>
                   (<["Accept-Ranges" := ["bytes"]]> ∅)) in
  let ok := Responds (mkResponse 206 "206 Partial Content" ∅)
              [mkStep [Byte.x61] ReadEOF None] in
  let bad := Responds (mkResponse 200 "200 OK" ∅)
               [mkStep [Byte.x62] ReadEOF None] in
  let schedule :=
    [Spawn; Spawn; Spawn; Take 0%nat; Take 1%nat; Take 2%nat;
     Finish 1%nat ok Second; Finish 2%nat ok Second; Finish 0%nat ok Second;
     Spawn; Spawn; Spawn;
     Take 0%nat; Take 1%nat; Take 2%nat; Take 3%nat; Take 4%nat;
     Finish 0%nat bad Second; Finish 1%nat bad Second; Finish 2%nat bad Second;
     Finish 3%nat bad Second; Finish 4%nat bad Second] in
  let env := mkEnv (inr head) (mkSingleEnv None (inl (ErrExternal "unused")))
               None None 9 schedule in
  let d := NewAdaptiveDownloader 0 "http://h/f" "f" in
  failures (res_events (Download d env))
  = [ErrChunk 3 (ErrStatus "200 OK"); ErrChunk 4 (ErrStatus "200 OK");
     ErrChunk 5 (ErrStatus "200 OK"); ErrChunk 6 (ErrStatus "200 OK");
     ErrChunk 7 (ErrStatus "200 OK")] /\
  fs (res_w (Download d env))
  = [mkCall (OpCreate "f") None; mkCall (OpTruncate 8388608) None;
     mkCall (OpWriteAt [Byte.x61] 1048576) None;
     mkCall (OpWriteAt [Byte.x61] 2097152) None;
     mkCall (OpWriteAt [Byte.x61] 0) None] /\
  CurrentConnections (res_d (Download d env)) = 5 /\
  forall acts3,
    res_outcome (Download d (with_schedule (schedule ++ acts3) env)) = Running.
Proof.
  cbv zeta. split; [vm_compute; reflexivity|].
  split; [vm_compute; reflexivity|]. split; [vm_compute; reflexivity|].
  intros acts3.
  edestruct (Download_range_run (NewAdaptiveDownloader 0 "http://h/f" "f"))
    as [_ Hout]; [| | | | |rewrite Hout].
  - vm_compute. reflexivity.
  - reflexivity.
  - reflexivity.
  - vm_compute. reflexivity.
  - vm_compute. discriminate.
  - rewrite run_pool_app. cbn [fst].
    apply (pool_stuck_for_good _ _ 4%nat (ErrChunk 7 (ErrStatus "200 OK"))).
    vm_compute. reflexivity.
Qed.




(** * Further properties *)

(** ** The capability probe *)

Lemma digit_bounds c d : digit c = Some d -> 0 <= d <= 9.
Proof.
  unfold digit. destruct (_ && _) eqn:E; [|done].
  apply andb_true_iff in E as [E1 E2]. apply Z.leb_le in E1, E2.
  intros [= <-]. lia.
Qed.

Lemma ParseUint_digits_bounds s : forall n un,
  0 <= n <= maxUint64 -> ParseUint_digits s n = inr un -> 0 <= un <= maxUint64.
Proof.
  induction s as [|c s IH]; intros n un Hn; simpl.
  - by intros [= <-].
  - destruct (digit c) as [d|] eqn:Ed; [|done].
    apply digit_bounds in Ed.
    destruct (n >=? _); [done|].
    destruct (Z.gtb_spec (n * 10 + d) maxUint64); [done|].
    apply IH. lia.
Qed.

Lemma ParseUint_bounds s un : ParseUint s = inr un -> 0 <= un <= maxUint64.
Proof.
  unfold ParseUint. destruct s as [|c s]; [done|].
  apply ParseUint_digits_bounds. unfold maxUint64. lia.
Qed.

Lemma ParseInt_in_range s n : ParseInt s = inr n -> Int64.in_range n.
Proof.
  unfold ParseInt. destruct s as [|c s]; [done|].
  destruct (ParseUint _) as [[]|un] eqn:Eu; try done.
  apply ParseUint_bounds in Eu as Hun.
  destruct (Ascii.eqb c "-"); simpl.
  - destruct (Z.gtb_spec un (2 ^ 63)); [done|]. intros [= <-]. int64_lia.
  - destruct (Z.geb_spec un (2 ^ 63)); [done|]. intros [= <-]. int64_lia.
Qed.



(** X2: whenever the probe returns an error it has left the downloader
    untouched and reports no range support, and the error is the one of
    [http.Head], or the status line of a non-200 answer, or the parse error
    of a non-empty [Content-Length]. *)
Theorem getFileSize_error (d : AdaptiveDownloader) (head : error + Response)
    (e : error) :
  (getFileSize d head).2.2 = Some e ->
  (getFileSize d head).1 = d /\
  (getFileSize d head).2.1 = false /\
  (head = inl e \/
   exists resp,
     head = inr resp /\
     ((StatusCode resp <> StatusOK /\ e = ErrStatus (Status resp)) \/
      (StatusCode resp = StatusOK /\
       Header_Get (Header resp) "Content-Length" <> "" /\
       ParseInt (Header_Get (Header resp) "Content-Length") = inl e))).
Proof.
  unfold getFileSize. destruct head as [e0|resp]; simpl.
  { intros [= ->]. auto. }
  destruct (Z.eqb_spec (StatusCode resp) StatusOK) as [Hst|Hst]; simpl.
  - destruct (String.eqb_spec (Header_Get (Header resp) "Content-Length") "")
      as [Hcl|Hcl]; [done|].
    destruct (ParseInt _) as [e0|size] eqn:Ep; simpl; [|done].
    intros [= ->]. split; [done|]. split; [done|]. right. exists resp. auto.
  - intros [= <-]. split; [done|]. split; [done|]. right. exists resp. auto.
Qed.

Lemma getFileSize_error_witness :
  let d := NewAdaptiveDownloader 0 "http://h/f" "f" in
  let head := inr (mkResponse 200 "200 OK" (<["Content-Length" := ["12a"]]> ∅)) in
  getFileSize d head = (d, (false, Some (ErrSyntax "12a"))).
Proof.
  cbv zeta.
  destruct (getFileSize_error (NewAdaptiveDownloader 0 "http://h/f" "f")
              (inr (mkResponse 200 "200 OK" (<["Content-Length" := ["12a"]]> ∅)))
              (ErrSyntax "12a"))
    as (Hd & Hr & _).
  - vm_compute. reflexivity.
  - vm_compute. reflexivity.
Defined.

(** X3: the probe keeps [FileSize] an [int64]: whatever [http.Head]
    answers, the recorded size is [-1] or a value [ParseInt] accepted, so
    it lies between [-2^63] and [2^63 - 1]. *)
Theorem getFileSize_FileSize_in_range (d : AdaptiveDownloader)
    (head : error + Response) :
  Int64.in_range (FileSize d) ->
  Int64.in_range (FileSize (getFileSize d head).1).
Proof.
  intros Hd. unfold getFileSize. destruct head as [e|resp]; [done|].
  destruct (negb _); [done|].
  destruct (String.eqb _ _); [simpl; int64_lia|].
  destruct (ParseInt _) as [e|size] eqn:Ep; [done|]. simpl.
  by apply ParseInt_in_range in Ep.
Qed.

Lemma getFileSize_FileSize_in_range_witness :
  let head := inr (mkResponse 200 "200 OK"
                     (<["Content-Length" := ["9223372036854775807"]]> ∅)) in
  Int64.in_range
    (FileSize (getFileSize (NewAdaptiveDownloader 0 "http://h/f" "f") head).1).
Proof.
  cbv zeta. apply getFileSize_FileSize_in_range.
  unfold Int64.in_range. vm_compute. split; discriminate.
Defined.

(** ** The fallback single-stream downloader *)

Lemma copyStream_calls body : forall w st,
  exists calls,
    fs (copyStream body w st).1.1 = fs w ++ calls /\
    net (copyStream body w st).1.1 = net w /\
    Forall (fun c => exists data, call_op c = OpWrite data) calls.
Proof.
  intros w st.
  destruct (copyStream_writes body w st) as (calls & Hfs & Hnet & Hops).
  exists calls. split; [done|]. split; [done|].
  apply Forall_lookup_2. intros i c Hc.
  assert ((call_op <$> calls) !! i = Some (call_op c)) as Hi
    by (by rewrite list_lookup_fmap, Hc).
  rewrite Hops, list_lookup_fmap in Hi.
  destruct (delivered body !! i) as [data|]; [|done].
  exists data. by injection Hi.
Qed.

(** X4: the fallback returns [nil] exactly when the file could be created,
    the GET went through with status 200 and the body was copied to its
    end without a write or read error; it prints its closing report in
    that case and in no other, and touches nothing of the downloader but
    the statistics. *)
Theorem downloadSingleConnection_ok_iff (d : AdaptiveDownloader) (w : World)
    (env : SingleEnv) :
  let r := downloadSingleConnection d w env in
  (r.1.2 = None <->
   se_create env = None /\
   exists resp body,
     se_get env = inr (resp, body) /\
     StatusCode resp = StatusOK /\ succeeds body = true) /\
  (is_Some r.2 <-> r.1.2 = None) /\
  set_Stats (Stats d) r.1.1.1 = d.
Proof.
  cbv zeta. unfold downloadSingleConnection.
  assert (Hd : set_Stats (Stats d) d = d) by (by destruct d).
  destruct (se_create env) as [e|]; simpl.
  { split; [split; intros H|split; [split; intros H|done]]; try done;
      by destruct H. }
  destruct (se_get env) as [e|[resp body]]; simpl.
  { split; [split; intros H|split; [split; intros H|done]]; try done;
      try (by destruct H as [_ (? & ? & ? & _)]); by destruct H. }
  destruct (Z.eqb_spec (StatusCode resp) StatusOK) as [Hst|Hst]; simpl.
  - pose proof (copyStream_succeeds body
                  (log_net (ReqGet (URL d))
                     (log_file (mkCall (OpCreate (Filename d)) None) w))
                  (Stats d)) as Hs.
    destruct (copyStream _ _ _) as [[w3 st] [e|]]; simpl in *.
    + split; [split; intros H|split; [split; intros H|done]]; try done;
        try (by destruct H as [? ?]).
      destruct H as [_ (resp' & body' & [= <- <-] & _ & Hok)].
      by apply Hs in Hok.
    + split; [split; intros H|split; [split; intros H|done]]; try done.
      split; [done|]. exists resp, body. by rewrite <- Hs.
  - split; [split; intros H|split; [split; intros H|done]]; try done;
      try (by destruct H as [_ (resp' & body' & [= <- <-] & ? & _)]);
      by destruct H.
Qed.

(** X5: on every path the fallback first creates the file, then makes at
    most one request, a plain GET of the URL, and every later file call is a
    sequential write: it never truncates, never writes at an offset and
    never asks for a range. *)
Theorem downloadSingleConnection_effects (d : AdaptiveDownloader) (w : World)
    (env : SingleEnv) :
  let r := downloadSingleConnection d w env in
  exists calls,
    fs r.1.1.2 = fs w ++ mkCall (OpCreate (Filename d)) (se_create env) :: calls /\
    Forall (fun c => exists data, call_op c = OpWrite data) calls /\
    (net r.1.1.2 = net w \/ net r.1.1.2 = net w ++ [ReqGet (URL d)]) /\
    (se_create env <> None -> calls = [] /\ net r.1.1.2 = net w).
Proof.
  cbv zeta. unfold downloadSingleConnection.
  destruct (se_create env) as [e|] eqn:Ec; simpl.
  { exists []. auto. }
  destruct (se_get env) as [e|[resp body]]; simpl.
  { exists []. split; [done|]. split; [constructor|]. split; [auto|done]. }
  destruct (negb _); simpl.
  { exists []. split; [done|]. split; [constructor|]. split; [auto|done]. }
  destruct (copyStream_calls body
              (log_net (ReqGet (URL d))
                 (log_file (mkCall (OpCreate (Filename d)) None) w))
              (Stats d)) as (calls & Hfs & Hnet & Hops).
  destruct (copyStream _ _ _) as [[w3 st] err]. simpl in *.
  exists calls.
  split; [destruct err; simpl; rewrite Hfs; by rewrite <- app_assoc|].
  split; [done|]. split; [|done]. destruct err; simpl; auto.
Qed.

(** ** Download: the paths around the pool *)

Lemma getFileSize_failed_untouched d head e :
  (getFileSize d head).2.2 = Some e -> (getFileSize d head).1 = d.
Proof.
  unfold getFileSize. destruct head as [e0|resp]; [done|].
  destruct (negb _); [done|]. destruct (String.eqb _ _); [done|].
  by destruct (ParseInt _).
Qed.

(** X6: when the probe fails, [Download] returns its error wrapped as
    "failed to get file info", with the downloader untouched, no file
    created and no request made beyond the probe. *)
Theorem Download_probe_failure (d : AdaptiveDownloader) (env : Env)
    (e : error) :
  (getFileSize d (env_head env)).2.2 = Some e ->
  Download d env
  = mkResult d (mkWorld [] [ReqHead (URL d)]) []
      (Returned (Some (ErrFileInfo e))) None.
Proof.
  intros He. pose proof (getFileSize_failed_untouched d (env_head env) e He) as Hd.
  unfold Download.
  destruct (getFileSize d (env_head env)) as [d1 [b err]]. simpl in *.
  by subst.
Qed.

Lemma Download_probe_failure_witness :
  let env := mkEnv (inr (mkResponse 404 "404 Not Found" ∅))
               (mkSingleEnv None (inl (ErrExternal "unused")))
               None None 5 [] in
  let d := NewAdaptiveDownloader 0 "http://h/f" "f" in
  res_outcome (Download d env)
  = Returned (Some (ErrFileInfo (ErrStatus "404 Not Found"))).
Proof.
  cbv zeta.
  rewrite (Download_probe_failure (NewAdaptiveDownloader 0 "http://h/f" "f")
             (mkEnv (inr (mkResponse 404 "404 Not Found" ∅))
                (mkSingleEnv None (inl (ErrExternal "unused")))
                None None 5 [])
             (ErrStatus "404 Not Found")).
  - reflexivity.
  - vm_compute. reflexivity.
Defined.

Lemma downloadSingleConnection_shape d w env :
  exists calls,
    fs (downloadSingleConnection d w env).1.1.2
    = fs w ++ mkCall (OpCreate (Filename d)) (se_create env) :: calls /\
    Forall (fun c => exists data, call_op c = OpWrite data) calls /\
    (net (downloadSingleConnection d w env).1.1.2 = net w \/
     net (downloadSingleConnection d w env).1.1.2 = net w ++ [ReqGet (URL d)]).
Proof.
  unfold downloadSingleConnection.
  destruct (se_create env) as [e|]; simpl; [exists []; auto|].
  destruct (se_get env) as [e|[resp body]]; simpl;
    [exists []; split; [done|]; split; [constructor|auto]|].
  destruct (negb _); simpl;
    [exists []; split; [done|]; split; [constructor|auto]|].
  destruct (copyStream_calls body
              (log_net (ReqGet (URL d))
                 (log_file (mkCall (OpCreate (Filename d)) None) w))
              (Stats d)) as (calls & Hfs & Hnet & Hops).
  destruct (copyStream _ _ _) as [[w3 st] err]. simpl in *.
  exists calls.
  split; [destruct err; simpl; rewrite Hfs; by rewrite <- app_assoc|].
  split; [done|]. destruct err; simpl; auto.
Qed.

(** X7: when the probe reports no range support, an unknown size
    included, [Download] is the fallback run on the probed downloader: its
    error and report are the fallback's, the pool never starts, the file is
    never truncated or written at an offset and no range is requested. *)
Theorem Download_fallback (d : AdaptiveDownloader) (env : Env)
    (d1 : AdaptiveDownloader) :
  getFileSize d (env_head env) = (d1, (false, None)) ->
  let r := Download d env in
  let s := downloadSingleConnection d1 (mkWorld [] [ReqHead (URL d)])
             (env_single env) in
  r = mkResult s.1.1.1 s.1.1.2 [] (Returned s.1.2) s.2 /\
  (forall c, c ∈ fs (res_w r) ->
     (exists name, call_op c = OpCreate name) \/
     (exists data, call_op c = OpWrite data)) /\
  (forall q, q ∈ net (res_w r) -> q = ReqHead (URL d) \/ q = ReqGet (URL d)).
Proof.
  intros Hprobe. cbv zeta.
  pose proof (getFileSize_keeps d (env_head env)) as [Hurl _].
  rewrite Hprobe in Hurl. simpl in Hurl.
  assert (Download d env
          = let s := downloadSingleConnection d1 (mkWorld [] [ReqHead (URL d)])
                       (env_single env) in
            mkResult s.1.1.1 s.1.1.2 [] (Returned s.1.2) s.2) as ->.
  { unfold Download. rewrite Hprobe. simpl.
    by destruct (downloadSingleConnection _ _ _) as [[[? ?] ?] ?]. }
  cbv zeta. split; [done|]. simpl.
  destruct (downloadSingleConnection_shape d1 (mkWorld [] [ReqHead (URL d)])
              (env_single env)) as (calls & Hfs & Hops & Hnet).
  rewrite Hfs. simpl. split.
  - intros c [->|Hc]%elem_of_cons; [left; by eexists|].
    right. by apply (proj1 (Forall_forall _ _) Hops).
  - rewrite Hurl in Hnet. intros q Hq.
    destruct Hnet as [Hnet|Hnet]; rewrite Hnet in Hq; simpl in Hq.
    + apply list_elem_of_singleton in Hq. auto.
    + apply elem_of_cons in Hq as [->|Hq]; [auto|].
      apply list_elem_of_singleton in Hq. auto.
Qed.

Lemma Download_fallback_witness :
  let body := [mkStep [Byte.x61; Byte.x62] ReadNil None;
               mkStep [Byte.x63] ReadEOF None] in
  let env := mkEnv (inr (mkResponse 200 "200 OK"
                           (<["Content-Length" := ["2048"]]> ∅)))
               (mkSingleEnv None (inr (mkResponse 200 "200 OK" ∅, body)))
               None None 5 [] in
  let r := Download (NewAdaptiveDownloader 0 "http://h/f" "f") env in
  res_outcome r = Returned None /\ res_reported r = Some 3.
Proof.
  cbv zeta.
  destruct (Download_fallback (NewAdaptiveDownloader 0 "http://h/f" "f")
              (mkEnv (inr (mkResponse 200 "200 OK"
                             (<["Content-Length" := ["2048"]]> ∅)))
                 (mkSingleEnv None
                    (inr (mkResponse 200 "200 OK" ∅,
                          [mkStep [Byte.x61; Byte.x62] ReadNil None;
                           mkStep [Byte.x63] ReadEOF None])))
                 None None 5 [])
              (set_FileSize 2048 (NewAdaptiveDownloader 0 "http://h/f" "f")))
    as (Hr & _).
  - vm_compute. reflexivity.
  - rewrite Hr. split; reflexivity.
Defined.

(** X8: on the range path, a failing [os.Create] makes [Download] return
    that error at once: the file is neither truncated nor written, nothing
    is planned or dispatched, and the probe stays the only request. *)
Theorem Download_create_failure (d : AdaptiveDownloader) (env : Env)
    (d1 : AdaptiveDownloader) (e : error) :
  getFileSize d (env_head env) = (d1, (true, None)) ->
  env_create env = Some e ->
  Download d env
  = mkResult d1
      (mkWorld [mkCall (OpCreate (Filename d)) (Some e)] [ReqHead (URL d)])
      [] (Returned (Some e)) None.
Proof.
  intros Hprobe Hcreate.
  pose proof (getFileSize_keeps d (env_head env)) as [_ Hname].
  rewrite Hprobe in Hname. simpl in Hname.
  unfold Download. rewrite Hprobe. simpl. by rewrite Hcreate, Hname.
Qed.

Lemma Download_create_failure_witness :
  let env := mkEnv (inr (mkResponse 200 "200 OK"
                           (<["Content-Length" := ["2097152"]]>
                              (<["Accept-Ranges" := ["bytes"]]> ∅))))
               (mkSingleEnv None (inl (ErrExternal "unused")))
               (Some (ErrExternal "permission denied")) None 5
               [Take 0%nat] in
  res_outcome (Download (NewAdaptiveDownloader 0 "http://h/f" "f") env)
  = Returned (Some (ErrExternal "permission denied")).
Proof.
  cbv zeta.
  rewrite (Download_create_failure (NewAdaptiveDownloader 0 "http://h/f" "f")
             (mkEnv (inr (mkResponse 200 "200 OK"
                            (<["Content-Length" := ["2097152"]]>
                               (<["Accept-Ranges" := ["bytes"]]> ∅))))
                (mkSingleEnv None (inl (ErrExternal "unused")))
                (Some (ErrExternal "permission denied")) None 5
                [Take 0%nat])
             (set_FileSize 2097152 (NewAdaptiveDownloader 0 "http://h/f" "f"))
             (ErrExternal "permission denied")).
  - reflexivity.
  - vm_compute. reflexivity.
  - reflexivity.
Defined.

(** ** The segment fetcher *)

Lemma copyChunk_succeeds body : forall offset w st,
  (copyChunk body offset w st).2 = None <-> succeeds body = true.
Proof.
  induction body as [|step body IH]; intros offset w st; [done|].
  simpl. unfold write_fails, has_bytes.
  destruct (0 <? Z.of_nat (length (rd_data step)));
    destruct (wr_err step); destruct (rd_err step); simpl;
    try apply IH; try done.
Qed.

Lemma copyChunk_bytes body : forall offset w st,
  0 <= BytesDownloaded st ->
  BytesDownloaded st + total (written body) <= Int64.max_int ->
  BytesDownloaded (copyChunk body offset w st).1.2
  = BytesDownloaded st + total (written body) /\
  StartTime (copyChunk body offset w st).1.2 = StartTime st.
Proof.
  induction body as [|step body IH]; intros offset w st Hlo Hhi;
    [simpl; split; [lia|done]|].
  pose proof (total_nonneg (written body)) as Hnn.
  simpl in Hhi |- *. unfold write_fails, has_bytes in *.
  destruct (Z.ltb_spec 0 (Z.of_nat (length (rd_data step)))) as [Hn|Hn].
  - destruct (wr_err step) as [e|]; simpl in *; [split; [lia|done]|].
    assert (BytesDownloaded (add_bytes (Z.of_nat (length (rd_data step))) st)
            = BytesDownloaded st + Z.of_nat (length (rd_data step))) as Hadd.
    { simpl. apply add_exact.
      destruct (rd_err step); simpl in Hhi; int64_lia. }
    destruct (rd_err step); simpl in *; try (split; [lia|done]).
    destruct (IH (Int64.add offset (Z.of_nat (length (rd_data step))))
                (log_file (mkCall (OpWriteAt (rd_data step) offset) None) w)
                (add_bytes (Z.of_nat (length (rd_data step))) st))
      as [H1 H2]; [simpl; rewrite Hadd; lia..|].
    rewrite H1, H2. simpl. rewrite Hadd. split; [lia|done].
  - destruct (rd_err step); simpl in *; try (split; [lia|done]). by apply IH.
Qed.

(** X9: a segment fetch returns [nil] exactly when the request was
    answered with status 206 and its body was copied to the end without a
    write or read error; a request that cannot be built or sent, any other
    status, a failed write and a failed read all make it return an error. *)
Theorem downloadChunk_ok_iff (d : AdaptiveDownloader) (chunk : ChunkInfo)
    (w : World) (reply : FetchReply) (elapsed : Duration) :
  (downloadChunk d chunk w reply elapsed).2 = None <->
  exists resp body,
    reply = Responds resp body /\
    StatusCode resp = StatusPartialContent /\ succeeds body = true.
Proof.
  unfold downloadChunk. destruct reply as [e|e|resp body]; simpl.
  - split; [done|]. by intros (? & ? & ? & _).
  - split; [done|]. by intros (? & ? & ? & _).
  - destruct (Z.eqb_spec (StatusCode resp) StatusPartialContent) as [Hst|Hst];
      simpl.
    + pose proof (copyChunk_succeeds body (Start chunk)
                    (log_net (ReqGetRange (URL d) (Start chunk) (End chunk)) w)
                    (Stats d)) as Hs.
      destruct (copyChunk _ _ _ _) as [[w' st'] err]. simpl in *.
      rewrite Hs. split.
      * intros Hok. by exists resp, body.
      * by intros (? & ? & [= <- <-] & _ & ?).
    + split; [done|]. by intros (? & ? & [= <- <-] & ? & _).
Qed.

(** X10: a segment fetch raises the shared byte counter by exactly the
    length of the buffers it wrote successfully, so never lowers it, and
    leaves the start time alone; a fetch that fails before its loop adds
    nothing. *)
Theorem downloadChunk_bytes (d : AdaptiveDownloader) (chunk : ChunkInfo)
    (w : World) (reply : FetchReply) (elapsed : Duration) :
  0 <= BytesDownloaded (Stats d) ->
  BytesDownloaded (Stats d) + total (written_by reply) <= Int64.max_int ->
  let d' := (downloadChunk d chunk w reply elapsed).1.1 in
  BytesDownloaded (Stats d')
  = BytesDownloaded (Stats d) + total (written_by reply) /\
  BytesDownloaded (Stats d) <= BytesDownloaded (Stats d') /\
  StartTime (Stats d') = StartTime (Stats d).
Proof.
  intros Hlo Hhi. cbv zeta.
  assert (0 <= total (written_by reply)) as Hnn by apply total_nonneg.
  assert (BytesDownloaded (Stats (downloadChunk d chunk w reply elapsed).1.1)
          = BytesDownloaded (Stats d) + total (written_by reply) /\
          StartTime (Stats (downloadChunk d chunk w reply elapsed).1.1)
          = StartTime (Stats d)) as [E1 E2].
  { unfold downloadChunk, written_by in *.
    destruct reply as [e|e|resp body]; simpl; try (split; [lia|done]).
    destruct (StatusCode resp =? StatusPartialContent); simpl;
      [|split; [lia|done]].
    pose proof (copyChunk_bytes body (Start chunk)
                  (log_net (ReqGetRange (URL d) (Start chunk) (End chunk)) w)
                  (Stats d) Hlo Hhi) as H.
    destruct (copyChunk _ _ _ _) as [[w' st'] err]. simpl in *. done. }
  rewrite E1, E2. split; [done|]. split; [lia|done].
Qed.

Lemma downloadChunk_bytes_witness :
  let d := NewAdaptiveDownloader 0 "http://h/f" "f" in
  let reply :=
    Responds (mkResponse 206 "206 Partial Content" ∅)
      [mkStep [Byte.x61; Byte.x62] ReadNil None;
       mkStep [Byte.x63] ReadNil (Some (ErrExternal "disk full"));
       mkStep [Byte.x64] ReadEOF None] in
  BytesDownloaded
    (Stats (downloadChunk d (mkChunk 0 3 0) (mkWorld [] []) reply 1).1.1) = 2.
Proof.
  cbv zeta.
  refine (proj1 (downloadChunk_bytes (NewAdaptiveDownloader 0 "http://h/f" "f")
    (mkChunk 0 3 0) (mkWorld [] [])
    (Responds (mkResponse 206 "206 Partial Content" ∅)
       [mkStep [Byte.x61; Byte.x62] ReadNil None;
        mkStep [Byte.x63] ReadNil (Some (ErrExternal "disk full"));
        mkStep [Byte.x64] ReadEOF None]) 1 _ _)).
  - vm_compute. discriminate.
  - vm_compute. discriminate.
Defined.

(** ** The pool and its event history *)

Lemma downloadChunk_keeps d chunk w reply elapsed :
  set_Stats (Stats d) (downloadChunk d chunk w reply elapsed).1.1 = d.
Proof.
  unfold downloadChunk.
  destruct (match reply with
            | NewRequestFails e => _ | DoFails e => _ | Responds resp body => _
            end) as [[w' st'] err].
  simpl. by destruct d.
Qed.

Lemma busy_chunks_insert (ws : list worker) (k : nat) x y :
  ws !! k = Some x ->
  busy_chunks (<[k := y]> ws) ++ chunk_of x ≡ₚ busy_chunks ws ++ chunk_of y.
Proof.
  unfold busy_chunks. revert k. induction ws as [|z ws IH]; intros k Hk; [done|].
  destruct k as [|k]; simpl in *.
  - injection Hk as ->. solve_Permutation.
  - specialize (IH k Hk). rewrite <- !app_assoc. by rewrite IH.
Qed.

Lemma busy_chunks_spawn (ws : list worker) :
  busy_chunks (ws ++ [Idle]) = busy_chunks ws.
Proof. unfold busy_chunks. rewrite flat_map_app. simpl. by rewrite app_nil_r. Qed.

(** A worker just started is idle: whatever else is found in the pool was
    there before. *)
Lemma lookup_spawned (ws : list worker) (k : nat) x :
  (ws ++ [Idle]) !! k = Some x -> x <> Idle -> ws !! k = Some x.
Proof.
  intros Hk Hx. apply lookup_app_Some in Hk as [Hk|[_ Hk]]; [done|].
  apply list_lookup_singleton_Some in Hk as [_ <-]. done.
Qed.

Lemma dispatch_first_snoc evs ev :
  dispatch_first evs ->
  (forall k c, ends_fetch ev k c -> Dispatched k c ∈ evs) ->
  dispatch_first (evs ++ [ev]).
Proof.
  intros Hevs Hev evs1 ev' evs2 k c Heq Hend.
  destruct (decide (evs2 = [])) as [->|Hne].
  - apply app_inj_tail in Heq as [-> ->]. by apply Hev.
  - destruct (exists_last Hne) as (evs2' & ev2 & ->).
    change (evs1 ++ ev' :: evs2' ++ [ev2])
      with (evs1 ++ (ev' :: evs2') ++ [ev2]) in Heq.
    rewrite app_assoc in Heq. apply app_inj_tail in Heq as [-> _].
    by eapply Hevs.
Qed.

Lemma start_pool_history d w chunks :
  history_ok chunks [] (start_pool d w chunks).
Proof.
  split; simpl; try done.
  - intros k Hk. by apply elem_of_nil in Hk.
  - by rewrite take_nil.
  - intros evs1 ev evs2 k c Heq. by destruct evs1.
Qed.

Ltac history_lists :=
  unfold dispatched, completed, failed, failures;
  rewrite ?flat_map_app; simpl; rewrite ?app_nil_r.

Ltac insert_cases k' k H :=
  destruct (decide (k' = k)) as [->|?];
  [rewrite list_lookup_insert_eq in H by (eapply lookup_lt_Some; eassumption)
  |rewrite list_lookup_insert_ne in H by done].

Lemma pool_step_history chunks evs a p :
  history_ok chunks evs p ->
  history_ok chunks (evs ++ (pool_step a p).2) (pool_step a p).1.
Proof.
  intros [Hq Hf Hb Hx Hl He Ho].
  destruct (pool_step_cases a p)
    as [|k _ Hk Hqueue|k c queue _ Hk Hqueue
        |k c reply elapsed d' w' e _ Hk _ Hlt
        |k c reply elapsed d' w' e _ Hk _ Hge
        |k c reply elapsed d' w' _ Hk _
        |_ _ _|_ _ _];
    simpl.
  - rewrite app_nil_r. by split.
  - pose proof (busy_chunks_insert _ k _ Exited Hk) as Hbusy.
    simpl in Hbusy. rewrite !app_nil_r in Hbusy.
    split; simpl.
    + history_lists. fold (dispatched evs). by rewrite <- Hq, Hqueue, app_nil_r.
    + history_lists. fold (dispatched evs) (completed evs) (failed evs).
      by rewrite Hbusy.
    + intros k' c' Hk'. insert_cases k' k Hk'; [done|].
      apply elem_of_app. left. by apply Hb.
    + intros k' Hk'. insert_cases k' k Hk'.
      * left. apply elem_of_app. right. by apply list_elem_of_singleton.
      * destruct (Hx k' Hk') as [H|(c' & e' & H)]; [left|right; exists c', e'];
          apply elem_of_app; by left.
    + done.
    + history_lists. by fold (failures evs).
    + apply dispatch_first_snoc; [done|]. by intros k' c' [?|[? ?]].
  - pose proof (busy_chunks_insert _ k _ (Busy c) Hk) as Hbusy.
    simpl in Hbusy. rewrite app_nil_r in Hbusy.
    split; simpl.
    + history_lists. fold (dispatched evs). rewrite <- Hq, Hqueue.
      by rewrite <- app_assoc.
    + history_lists. fold (dispatched evs) (completed evs) (failed evs).
      rewrite Hbusy, Hf. solve_Permutation.
    + intros k' c' Hk'. insert_cases k' k Hk'.
      * injection Hk' as <-. apply elem_of_app. right.
        by apply list_elem_of_singleton.
      * apply elem_of_app. left. by apply Hb.
    + intros k' Hk'. insert_cases k' k Hk'; [done|].
      destruct (Hx k' Hk') as [H|(c' & e' & H)]; [left|right; exists c', e'];
        apply elem_of_app; by left.
    + intros k' [H|H]%elem_of_app.
      * apply Hl in H. by rewrite Hqueue in H.
      * by apply list_elem_of_singleton in H.
    + history_lists. by fold (failures evs).
    + apply dispatch_first_snoc; [done|]. by intros k' c' [?|[? ?]].
  - pose proof (busy_chunks_insert _ k _ Exited Hk) as Hbusy.
    simpl in Hbusy. rewrite app_nil_r in Hbusy.
    split; simpl.
    + history_lists. by fold (dispatched evs).
    + history_lists. fold (dispatched evs) (completed evs) (failed evs).
      rewrite Hf, <- Hbusy. solve_Permutation.
    + intros k' c' Hk'. insert_cases k' k Hk'; [done|].
      apply elem_of_app. left. by apply Hb.
    + intros k' Hk'. insert_cases k' k Hk'.
      * right. exists c, e. apply elem_of_app. right.
        by apply list_elem_of_singleton.
      * destruct (Hx k' Hk') as [H|(c' & e' & H)]; [left|right; exists c', e'];
          apply elem_of_app; by left.
    + intros k' [H|H]%elem_of_app; [by eapply Hl|].
      by apply list_elem_of_singleton in H.
    + history_lists. fold (failures evs).
      rewrite He, length_take in Hlt.
      rewrite He, !take_ge; [done| |]; rewrite ?length_app; simpl; lia.
    + apply dispatch_first_snoc; [done|].
      intros k' c' [?|[e' [= <- <- <-]]]; [done|]. by apply Hb.
  - pose proof (busy_chunks_insert _ k _
                  (Blocked (ErrChunk (Index c) e)) Hk) as Hbusy.
    simpl in Hbusy. rewrite app_nil_r in Hbusy.
    split; simpl.
    + history_lists. by fold (dispatched evs).
    + history_lists. fold (dispatched evs) (completed evs) (failed evs).
      rewrite Hf, <- Hbusy. solve_Permutation.
    + intros k' c' Hk'. insert_cases k' k Hk'; [done|].
      apply elem_of_app. left. by apply Hb.
    + intros k' Hk'. insert_cases k' k Hk'; [done|].
      destruct (Hx k' Hk') as [H|(c' & e' & H)]; [left|right; exists c', e'];
        apply elem_of_app; by left.
    + intros k' [H|H]%elem_of_app; [by eapply Hl|].
      by apply list_elem_of_singleton in H.
    + history_lists. fold (failures evs).
      rewrite He, length_take in Hge.
      rewrite take_app_le by lia. done.
    + apply dispatch_first_snoc; [done|].
      intros k' c' [?|[e' [= <- <- <-]]]; [done|]. by apply Hb.
  - pose proof (busy_chunks_insert _ k _ Idle Hk) as Hbusy.
    simpl in Hbusy. rewrite app_nil_r in Hbusy.
    split; simpl.
    + history_lists. by fold (dispatched evs).
    + history_lists. fold (dispatched evs) (completed evs) (failed evs).
      rewrite Hf, <- Hbusy. solve_Permutation.
    + intros k' c' Hk'. insert_cases k' k Hk'; [done|].
      apply elem_of_app. left. by apply Hb.
    + intros k' Hk'. insert_cases k' k Hk'; [done|].
      destruct (Hx k' Hk') as [H|(c' & e' & H)]; [left|right; exists c', e'];
        apply elem_of_app; by left.
    + intros k' [H|H]%elem_of_app; [by eapply Hl|].
      by apply list_elem_of_singleton in H.
    + history_lists. by fold (failures evs).
    + apply dispatch_first_snoc; [done|].
      intros k' c' [[= <- <-]|[e' ?]]; [|done]. by apply Hb.
  - rewrite app_nil_r. split; simpl; rewrite ?busy_chunks_spawn; try done.
    + intros k c Hk. apply lookup_spawned in Hk; [by apply Hb|done].
    + intros k Hk. apply lookup_spawned in Hk; [by apply Hx|done].
  - rewrite app_nil_r. by split.
Qed.

Lemma run_pool_history chunks acts : forall evs p,
  history_ok chunks evs p ->
  history_ok chunks (evs ++ (run_pool acts p).2) (run_pool acts p).1.
Proof.
  induction acts as [|a acts IH]; intros evs p Hh.
  - simpl. by rewrite app_nil_r.
  - rewrite run_pool_cons. simpl. rewrite app_assoc.
    by apply IH, pool_step_history.
Qed.

Lemma pool_history d w chunks acts :
  let q := run_pool acts (start_pool d w chunks) in
  history_ok chunks q.2 q.1 /\ pool_ok q.1.
Proof.
  cbv zeta. split.
  - apply (run_pool_history chunks acts []), start_pool_history.
  - apply run_pool_ok, start_pool_ok.
Qed.

(** Every failed fetch has its error in the channel or its worker stuck
    on it. *)
Lemma pool_step_stuck evs a p :
  length (failures evs)
  = (length (errChan p) + tally is_stuck (workers p))%nat ->
  length (failures (evs ++ (pool_step a p).2))
  = (length (errChan (pool_step a p).1)
     + tally is_stuck (workers (pool_step a p).1))%nat.
Proof.
  intros H. unfold failures in *. rewrite flat_map_app, length_app, H.
  destruct (pool_step_cases a p)
    as [|k _ Hk _|k c queue _ Hk _|k c reply elapsed d' w' e _ Hk _ _
        |k c reply elapsed d' w' e _ Hk _ _|k c reply elapsed d' w' _ Hk _
        |_ _ _|_ _ _];
    simpl; rewrite ?length_app, ?tally_app; simpl; try lia.
  - pose proof (tally_insert is_stuck _ k _ Exited Hk) as Ht. simpl in Ht. lia.
  - pose proof (tally_insert is_stuck _ k _ (Busy c) Hk) as Ht. simpl in Ht. lia.
  - pose proof (tally_insert is_stuck _ k _ Exited Hk) as Ht. simpl in Ht. lia.
  - pose proof (tally_insert is_stuck _ k _
                  (Blocked (ErrChunk (Index c) e)) Hk) as Ht.
    simpl in Ht. lia.
  - pose proof (tally_insert is_stuck _ k _ Idle Hk) as Ht. simpl in Ht. lia.
Qed.

Lemma run_pool_stuck acts : forall evs p,
  length (failures evs)
  = (length (errChan p) + tally is_stuck (workers p))%nat ->
  length (failures (evs ++ (run_pool acts p).2))
  = (length (errChan (run_pool acts p).1)
     + tally is_stuck (workers (run_pool acts p).1))%nat.
Proof.
  induction acts as [|a acts IH]; intros evs p H.
  - simpl. by rewrite app_nil_r.
  - rewrite run_pool_cons. simpl. rewrite app_assoc.
    by apply IH, pool_step_stuck.
Qed.

Lemma tally_stuck_exited ws :
  forallb is_exited ws = true -> tally is_stuck ws = 0%nat.
Proof.
  induction ws as [|x ws IH]; [done|]. simpl.
  intros [Hx Hws]%andb_true_iff. rewrite (IH Hws). by destruct x.
Qed.

(** Once every worker has returned, all the failures are in the channel. *)
Lemma pool_all_sent d w chunks acts :
  let q := run_pool acts (start_pool d w chunks) in
  forallb is_exited (workers q.1) = true -> errChan q.1 = failures q.2.
Proof.
  cbv zeta. intros Hall.
  destruct (pool_history d w chunks acts) as [Hh _].
  pose proof (run_pool_stuck acts [] (start_pool d w chunks) eq_refl) as Hs.
  simpl in Hs. rewrite (tally_stuck_exited _ Hall) in Hs.
  pose proof (h_errs _ _ _ Hh) as He. rewrite He in Hs |- *.
  rewrite length_take in Hs. apply take_ge. lia.
Qed.

Lemma failures_nil evs : failures evs = [] -> forall k c e, Failed k c e ∉ evs.
Proof.
  induction evs as [|ev evs IH]; intros Hnil k c e Hin.
  { by apply elem_of_nil in Hin. }
  unfold failures in Hnil. simpl in Hnil.
  apply elem_of_cons in Hin as [<-|Hin]; [done|].
  apply app_eq_nil in Hnil as [_ Hnil]. by eapply IH.
Qed.

Lemma failures_failed evs : failures evs = [] -> failed evs = [].
Proof.
  induction evs as [|ev evs IH]; [done|]. intros H.
  unfold failures in H. simpl in H. apply app_eq_nil in H as [H1 H2].
  unfold failed. simpl. fold (failed evs). rewrite (IH H2).
  by destruct ev.
Qed.

Lemma busy_chunks_exited ws : forallb is_exited ws = true -> busy_chunks ws = [].
Proof.
  induction ws as [|x ws IH]; [done|]. simpl.
  intros [Hx Hws]%andb_true_iff. unfold busy_chunks. simpl.
  destruct x; try done. by apply IH.
Qed.

(** The capacity of the error channel never changes, and workers are only
    ever added. *)
Lemma pool_step_shape a p :
  errCap (pool_step a p).1 = errCap p /\
  (length (workers p) <= length (workers (pool_step a p).1))%nat.
Proof.
  destruct (pool_step_cases a p); simpl;
    rewrite ?length_insert, ?length_app; simpl; split; try done; lia.
Qed.

Lemma run_pool_shape acts : forall p,
  errCap (run_pool acts p).1 = errCap p /\
  (length (workers p) <= length (workers (run_pool acts p).1))%nat.
Proof.
  induction acts as [|a acts IH]; intros p; [done|].
  rewrite run_pool_cons. simpl.
  destruct (IH (pool_step a p).1) as [-> Hle].
  destruct (pool_step_shape a p) as [-> Hle']. split; [done|lia].
Qed.




(** X11: whatever the schedule, the segments handed out so far followed by
    those still queued are the plan, in plan order, so no segment is handed
    out twice or skipped; and every segment handed out has since completed,
    failed, or is the one its worker is fetching. *)
Theorem pool_segment_conservation (d : AdaptiveDownloader) (w : World)
    (chunks : list ChunkInfo) (acts : list action) :
  let q := run_pool acts (start_pool d w chunks) in
  dispatched q.2 ++ chunkChan q.1 = chunks /\
  dispatched q.2 ≡ₚ completed q.2 ++ failed q.2 ++ busy_chunks (workers q.1).
Proof.
  destruct (pool_history d w chunks acts) as [Hh _].
  split; [apply (h_queue _ _ _ Hh)|apply (h_fate _ _ _ Hh)].
Qed.

(** X12: first error wins.  The error channel holds the errors of the
    failed fetches in the order they failed, each wrapped with its
    segment's index, up to its capacity, the count [Download] started
    with; once [Download] is beyond its wait every failure is among them,
    its result is the first of them, and it is [nil] only if no fetch
    failed. *)
Theorem pool_first_error_wins (d : AdaptiveDownloader) (w : World)
    (chunks : list ChunkInfo) (acts : list action) :
  let q := run_pool acts (start_pool d w chunks) in
  errChan q.1 = take (Z.to_nat (CurrentConnections d)) (failures q.2) /\
  (forall r, pool_outcome q.1 = Returned r ->
     errChan q.1 = failures q.2 /\ r = head (failures q.2)) /\
  (pool_outcome q.1 = Returned None -> forall k c e, Failed k c e ∉ q.2).
Proof.
  destruct (pool_history d w chunks acts) as [Hh _]. cbv zeta.
  pose proof (h_errs _ _ _ Hh) as He.
  destruct (run_pool_shape acts (start_pool d w chunks)) as [Hcap _].
  rewrite Hcap in He. simpl in He.
  assert (forall r, pool_outcome (run_pool acts (start_pool d w chunks)).1
                    = Returned r ->
                    errChan (run_pool acts (start_pool d w chunks)).1
                    = failures (run_pool acts (start_pool d w chunks)).2 /\
                    r = head (failures (run_pool acts (start_pool d w chunks)).2))
    as Hr.
  { intros r. unfold pool_outcome.
    destruct (negb _); [|done]. simpl.
    destruct (forallb _ _) eqn:Hall; [|done]. intros [= <-].
    by rewrite (pool_all_sent d w chunks acts Hall). }
  split; [done|]. split; [done|].
  intros Hnone. apply Hr in Hnone as [_ Hnone]. apply failures_nil.
  by destruct (failures _).
Qed.

(** X13: a fetch ends, completed or failed, only on the worker that was
    handed that very segment earlier: no worker fetches what it did not
    receive from the queue. *)
Theorem pool_dispatch_first (d : AdaptiveDownloader) (w : World)
    (chunks : list ChunkInfo) (acts : list action) :
  dispatch_first (run_pool acts (start_pool d w chunks)).2.
Proof.
  destruct (pool_history d w chunks acts) as [Hh _]. apply (h_order _ _ _ Hh).
Qed.

(** X14: the error channel keeps the capacity [CurrentConnections] had
    when [Download] made it and never holds more; a worker is stuck
    sending only if more workers were started than that; and when the
    spawn loop has ended with no more workers than slots, the workers can
    all leave and [Download] return. *)
Theorem pool_blocks_only_when_outnumbered (d : AdaptiveDownloader) (w : World)
    (chunks : list ChunkInfo) (acts : list action) :
  let q := run_pool acts (start_pool d w chunks) in
  errCap q.1 = Z.to_nat (CurrentConnections d) /\
  (length (errChan q.1) <= errCap q.1)%nat /\
  ((length (workers q.1) <= errCap q.1)%nat ->
   Forall not_blocked (workers q.1)) /\
  (settled q.1 ->
   exists acts' r,
     pool_outcome (run_pool (acts ++ acts') (start_pool d w chunks)).1
     = Returned r).
Proof.
  destruct (pool_history d w chunks acts) as [_ Hok]. cbv zeta.
  destruct (run_pool_shape acts (start_pool d w chunks)) as [Hcap _].
  split; [done|]. split; [apply (ok_cap _ Hok)|].
  split; [by apply settled_unblocked|].
  intros Hset.
  destruct (pool_can_finish _ _ (le_n _) Hok Hset) as (acts' & Hall & Hsp).
  exists acts', (head (errChan (run_pool (acts ++ acts')
                                  (start_pool d w chunks)).1)).
  unfold pool_outcome. rewrite run_pool_app. cbn [fst].
  by rewrite Hall, Hsp.
Qed.

Lemma pool_blocks_only_when_outnumbered_witness :
  let bad := Responds (mkResponse 200 "200 OK" ∅) [] in
  let q := run_pool
             [Spawn; Spawn; Spawn; Spawn; Spawn; Take 0%nat; Take 1%nat;
              Finish 0%nat bad 1; Finish 1%nat bad 1]
             (start_pool (NewAdaptiveDownloader 0 "http://h/f" "f")
                (mkWorld [] [])
                [mkChunk 0 1048575 0; mkChunk 1048576 2097151 1]) in
  Forall not_blocked (workers q.1).
Proof.
  cbv zeta.
  refine (proj1 (proj2 (proj2 (pool_blocks_only_when_outnumbered
    (NewAdaptiveDownloader 0 "http://h/f" "f") (mkWorld [] [])
    [mkChunk 0 1048575 0; mkChunk 1048576 2097151 1]
    [Spawn; Spawn; Spawn; Spawn; Spawn; Take 0%nat; Take 1%nat;
     Finish 0%nat (Responds (mkResponse 200 "200 OK" ∅) []) 1;
     Finish 1%nat (Responds (mkResponse 200 "200 OK" ∅) []) 1]))) _).
  vm_compute. lia.
Defined.





(** X16: a range [Download] that returns [nil] with at least one worker
    has emptied the queue and completed every planned segment exactly
    once: the completed segments are a rearrangement of the plan, all of
    it was handed out in plan order, and no fetch failed. *)
Theorem Download_success_complete (d : AdaptiveDownloader) (env : Env)
    (d1 : AdaptiveDownloader) (chunks : list ChunkInfo) :
  getFileSize d (env_head env) = (d1, (true, None)) ->
  env_create env = None ->
  env_truncate env = None ->
  planChunks (env_fuel env) (FileSize d1) (ChunkSize d1) = Some chunks ->
  0 < CurrentConnections d1 ->
  res_outcome (Download d env) = Returned None ->
  let evs := res_events (Download d env) in
  completed evs ≡ₚ chunks /\
  dispatched evs = chunks /\
  forall k c e, Failed k c e ∉ evs.
Proof.
  intros Hprobe Hcreate Htrunc Hplan Hcur.
  rewrite (Download_range_path d env d1 chunks) by (try done; lia).
  cbv zeta. simpl. intros Hout.
  pose proof (pool_all_sent d1 (presized d1 env) chunks (env_schedule env))
    as Hsent.
  destruct (pool_history d1 (presized d1 env) chunks (env_schedule env))
    as [Hh Hok].
  destruct (run_pool_shape (env_schedule env)
              (start_pool d1 (presized d1 env) chunks)) as [Hcap _].
  set (q := run_pool (env_schedule env) (start_pool d1 (presized d1 env) chunks))
    in *.
  simpl in Hcap, Hsent. unfold pool_outcome in Hout.
  destruct (spawning q.1) eqn:Hsp; [done|]. simpl in Hout.
  destruct (forallb is_exited (workers q.1)) eqn:Hall; [|done].
  injection Hout as Hhead. rewrite (Hsent eq_refl) in Hhead.
  assert (failures q.2 = []) as Hnone by (by destruct (failures q.2)).
  assert (chunkChan q.1 = []) as Hempty.
  { destruct (workers q.1) as [|x ws] eqn:Ews.
    { destruct (ok_none _ Hok Ews) as [Hc Hle]. specialize (Hle Hsp). lia. }
    simpl in Hall. apply andb_true_iff in Hall as [Hx _].
    destruct x; try done.
    destruct (h_exit _ _ _ Hh 0%nat) as [Hleft|(c & e & Hf)];
      [by rewrite Ews|by eapply (h_left _ _ _ Hh)|].
    by apply (failures_nil _ Hnone) in Hf. }
  pose proof (h_queue _ _ _ Hh) as Hq. rewrite Hempty, app_nil_r in Hq.
  pose proof (h_fate _ _ _ Hh) as Hf.
  rewrite (failures_failed _ Hnone), (busy_chunks_exited _ Hall) in Hf.
  simpl in Hf. rewrite app_nil_r, Hq in Hf.
  split; [done|]. split; [done|]. by apply failures_nil.
Qed.

Lemma Download_success_complete_witness :
  let ok := Responds (mkResponse 206 "206 Partial Content" ∅)
              [mkStep [Byte.x61] ReadEOF None] in
  let env := mkEnv (inr (mkResponse 200 "200 OK"
                           (<["Content-Length" := ["2097152"]]>
                              (<["Accept-Ranges" := ["bytes"]]> ∅))))
               (mkSingleEnv None (inl (ErrExternal "unused")))
               None None 5
               [Spawn; Spawn; Take 1%nat; Take 0%nat; Spawn; Finish 0%nat ok 7;
                Spawn; Spawn; Finish 1%nat ok 9;
                Take 0%nat; Take 1%nat; Take 2%nat; Take 3%nat] in
  completed (res_events (Download (NewAdaptiveDownloader 0 "http://h/f" "f") env))
  ≡ₚ [mkChunk 0 1048575 0; mkChunk 1048576 2097151 1].
Proof.
  cbv zeta.
  refine (proj1 (Download_success_complete
    (NewAdaptiveDownloader 0 "http://h/f" "f")
    (mkEnv (inr (mkResponse 200 "200 OK"
                   (<["Content-Length" := ["2097152"]]>
                      (<["Accept-Ranges" := ["bytes"]]> ∅))))
       (mkSingleEnv None (inl (ErrExternal "unused"))) None None 5
       [Spawn; Spawn; Take 1%nat; Take 0%nat; Spawn;
        Finish 0%nat (Responds (mkResponse 206 "206 Partial Content" ∅)
                        [mkStep [Byte.x61] ReadEOF None]) 7;
        Spawn; Spawn;
        Finish 1%nat (Responds (mkResponse 206 "206 Partial Content" ∅)
                        [mkStep [Byte.x61] ReadEOF None]) 9;
        Take 0%nat; Take 1%nat; Take 2%nat; Take 3%nat])
    (set_FileSize 2097152 (NewAdaptiveDownloader 0 "http://h/f" "f"))
    [mkChunk 0 1048575 0; mkChunk 1048576 2097151 1]
    _ _ _ _ _ _)).
  - vm_compute. reflexivity.
  - reflexivity.
  - reflexivity.
  - vm_compute. reflexivity.
  - vm_compute. reflexivity.
  - vm_compute. reflexivity.
Defined.

(** ** The settings through a download *)

Lemma downloadSingleConnection_keeps d w env :
  set_Stats (Stats d) (downloadSingleConnection d w env).1.1.1 = d.
Proof.
  assert (Hd : set_Stats (Stats d) d = d) by (by destruct d).
  unfold downloadSingleConnection.
  destruct (se_create env); [done|].
  destruct (se_get env) as [e|[resp body]]; [done|].
  destruct (negb _); [done|].
  destruct (copyStream _ _ _) as [[w3 st] [e|]]; simpl; by destruct d.
Qed.

Lemma getFileSize_settings d head :
  set_FileSize (FileSize d) (getFileSize d head).1 = d.
Proof.
  assert (Hd : set_FileSize (FileSize d) d = d) by (by destruct d).
  unfold getFileSize. destruct head as [e|resp]; [done|].
  destruct (negb _); [done|]. destruct (String.eqb _ _); [by destruct d|].
  destruct (ParseInt _); [done|by destruct d].
Qed.

Lemma settings_kept_stats d0 d d' :
  settings_kept d0 d -> set_Stats (Stats d) d' = d -> settings_kept d0 d'.
Proof.
  intros H E. rewrite <- E in H. destruct d'. exact H.
Qed.

Lemma pool_step_settings d0 a p :
  Int64.in_range (MaxConnections d0) -> Int64.in_range (MinConnections d0) ->
  settings_kept d0 (pool_d p) /\ FileSize (pool_d p) = FileSize d0 ->
  settings_kept d0 (pool_d (pool_step a p).1) /\
  FileSize (pool_d (pool_step a p).1) = FileSize d0.
Proof.
  intros Hmax Hmin [Hk Hsize].
  assert (forall c reply elapsed d' w' err,
            downloadChunk (pool_d p) c (pool_w p) reply elapsed = (d', w', err) ->
            settings_kept d0 d' /\ FileSize d' = FileSize d0) as Hfetch.
  { intros c reply elapsed d' w' err Hd.
    pose proof (downloadChunk_keeps (pool_d p) c (pool_w p) reply elapsed) as H.
    rewrite Hd in H. simpl in H.
    split; [by eapply settings_kept_stats|]. rewrite <- Hsize, <- H.
    by destruct d'. }
  destruct (pool_step_cases a p)
    as [|k _ _ _|k c queue _ _ _|k c reply elapsed d' w' e _ _ Hd _
        |k c reply elapsed d' w' e _ _ Hd _|k c reply elapsed d' w' _ _ Hd
        |_ _ _|_ _ _];
    simpl; try done; try (by eapply Hfetch).
  destruct (Hfetch _ _ _ _ _ _ Hd) as [Hk' Hsize'].
  destruct (Z.rem (Index c) 5 =? 0); [|done].
  destruct Hk' as (Hu & Hf & Hma & Hmi & Hc & Hb).
  destruct (calculateOptimalConnections_bounds d') as (H1 & H2 & H3).
  { unfold connections_in_range. rewrite Hma, Hmi.
    split; [done|]. split; [done|]. int64_lia. }
  { by rewrite Hma, Hmi. }
  assert (set_CurrentConnections (CurrentConnections d')
            (calculateOptimalConnections d') = d') as Hrest.
  { unfold calculateOptimalConnections.
    destruct (_ <? 3)%nat; [by destruct d'|].
    destruct (_ && _); [by destruct d'|].
    destruct (_ && _); by destruct d'. }
  rewrite Hma, Hmi in H3.
  destruct (calculateOptimalConnections d') as [u f ma mi cu cs fsz st].
  destruct d' as [u' f' ma' mi' cu' cs' fsz' st']. simpl in *.
  injection Hrest as -> -> -> -> -> -> ->. done.
Qed.

Lemma run_pool_settings d0 acts : forall p,
  Int64.in_range (MaxConnections d0) -> Int64.in_range (MinConnections d0) ->
  settings_kept d0 (pool_d p) /\ FileSize (pool_d p) = FileSize d0 ->
  settings_kept d0 (pool_d (run_pool acts p).1) /\
  FileSize (pool_d (run_pool acts p).1) = FileSize d0.
Proof.
  induction acts as [|a acts IH]; intros p Hmax Hmin Hp; [done|].
  rewrite run_pool_cons. simpl. apply IH; try done.
  by apply pool_step_settings.
Qed.

(** X17: whichever path [Download] takes and whatever the schedule, it
    leaves the URL, the file name, the bounds and the segment length as
    they were, keeps the worker count between the bounds it started
    between, and leaves the size as the probe set it. *)
Theorem Download_keeps_settings (d : AdaptiveDownloader) (env : Env) :
  connections_in_range d ->
  MinConnections d <= CurrentConnections d <= MaxConnections d ->
  settings_kept d (res_d (Download d env)) /\
  FileSize (res_d (Download d env)) = FileSize (getFileSize d (env_head env)).1.
Proof.
  intros (Hmax & Hmin & Hcur) Hb.
  pose proof (getFileSize_settings d (env_head env)) as Hprobe.
  unfold Download.
  destruct (getFileSize d (env_head env)) as [d1 [ranges err]]. simpl in *.
  assert (settings_kept d d1) as H1.
  { unfold settings_kept. rewrite <- Hprobe in Hb |- *.
    destruct d1; simpl in *. repeat split; try done; lia. }
  destruct err as [e|]; [done|].
  destruct ranges; simpl.
  - destruct (env_create env); [done|]. destruct (env_truncate env); [done|].
    destruct (planChunks _ _ _) as [chunks|]; [|done].
    destruct (_ <? 0); [done|].
    pose proof (run_pool_settings d1 (env_schedule env)
                  (start_pool d1
                     (log_file (mkCall (OpTruncate (FileSize d1)) None)
                        (log_file (mkCall (OpCreate (Filename d1)) None)
                           (log_net (ReqHead (URL d)) (mkWorld [] []))))
                     chunks)) as Hrun.
    destruct (run_pool _ _) as [p evs]. simpl in *.
    destruct H1 as (Hu & Hf & Hma & Hmi & Hc & Hb1).
    destruct Hrun as [(Hu' & Hf' & Hma' & Hmi' & Hc' & Hb') Hsize].
    + by rewrite Hma.
    + by rewrite Hmi.
    + split; [|done]. repeat split; try done; lia.
    + split; [|done]. repeat split; try congruence; lia.
  - pose proof (downloadSingleConnection_keeps d1
                  (log_net (ReqHead (URL d)) (mkWorld [] []))
                  (env_single env)) as Hs.
    destruct (downloadSingleConnection _ _ _) as [[[d2 w] err] reported].
    simpl in *. split; [by eapply settings_kept_stats|].
    rewrite <- Hs. by destruct d2.
Qed.

Lemma Download_keeps_settings_witness :
  let ok := Responds (mkResponse 206 "206 Partial Content" ∅)
              [mkStep [Byte.x61] ReadEOF None] in
  let env := mkEnv (inr (mkResponse 200 "200 OK"
                           (<["Content-Length" := ["2097152"]]>
                              (<["Accept-Ranges" := ["bytes"]]> ∅))))
               (mkSingleEnv None (inl (ErrExternal "unused")))
               None None 5
               [Spawn; Spawn; Take 0%nat; Finish 0%nat ok 1; Take 1%nat;
                Finish 1%nat ok 1] in
  let d := NewAdaptiveDownloader 0 "http://h/f" "f" in
  2 <= CurrentConnections (res_d (Download d env)) <= 16.
Proof.
  cbv zeta.
  refine (proj2 (proj2 (proj2 (proj2 (proj2 (proj1
    (Download_keeps_settings (NewAdaptiveDownloader 0 "http://h/f" "f")
       (mkEnv (inr (mkResponse 200 "200 OK"
                      (<["Content-Length" := ["2097152"]]>
                         (<["Accept-Ranges" := ["bytes"]]> ∅))))
          (mkSingleEnv None (inl (ErrExternal "unused"))) None None 5
          [Spawn; Spawn; Take 0%nat;
           Finish 0%nat (Responds (mkResponse 206 "206 Partial Content" ∅)
                           [mkStep [Byte.x61] ReadEOF None]) 1;
           Take 1%nat;
           Finish 1%nat (Responds (mkResponse 206 "206 Partial Content" ∅)
                           [mkStep [Byte.x61] ReadEOF None]) 1])
       _ _))))))).
  - unfold connections_in_range, Int64.in_range. vm_compute.
    intuition discriminate.
  - simpl. lia.
Defined.

(** ** The controller's window *)

(** X18: the controller is memoryless: with at least three samples its
    verdict depends only on the three most recent ones, whatever came
    before them. *)
Theorem calculateOptimalConnections_window (d : AdaptiveDownloader)
    (h h' : list Duration) (a b c : Duration) :
  CurrentConnections (calculateOptimalConnections (with_history (h ++ [a; b; c]) d))
  = CurrentConnections
      (calculateOptimalConnections (with_history (h' ++ [a; b; c]) d)).
Proof.
  unfold calculateOptimalConnections. simpl.
  rewrite !length_app. simpl.
  assert (forall n, (n + 3 <? 3)%nat = false) as Hlen
    by (intros n; apply Nat.ltb_ge; lia).
  rewrite !Hlen, !avgTime_last3.
  destruct (_ && _); [done|]. by destruct (_ && _).
Qed.

(** ** More on the chunk planner *)

Lemma planChunks_loop_mono (fuel : nat) : forall fuel' fileSize chunkSize i chunks l,
  (fuel <= fuel')%nat ->
  planChunks_loop fuel fileSize chunkSize i chunks = Some l ->
  planChunks_loop fuel' fileSize chunkSize i chunks = Some l.
Proof.
  induction fuel as [|fuel IH]; intros fuel' fileSize chunkSize i chunks l Hle;
    [done|].
  destruct fuel' as [|fuel']; [lia|].
  rewrite !planChunks_loop_unfold.
  destruct (i <? fileSize); [|done]. apply IH. lia.
Qed.

Lemma plan_bytes_app l1 l2 : plan_bytes (l1 ++ l2) = plan_bytes l1 + plan_bytes l2.
Proof. unfold plan_bytes. induction l1 as [|c l1 IH]; simpl; lia. Qed.

Lemma planned_upto_bytes (size L : Z) (m : nat) :
  0 <= size -> 0 < L -> Z.of_nat m <= segment_count size L ->
  plan_bytes (planned_upto size L (Z.of_nat m)) = Z.min (Z.of_nat m * L) size.
Proof.
  intros HS HL. induction m as [|m IH]; intros Hm.
  - simpl. lia.
  - replace (Z.of_nat (S m)) with (Z.of_nat m + 1) by lia.
    rewrite planned_upto_snoc by lia. rewrite plan_bytes_app, IH by lia.
    unfold plan_bytes, chunk_bytes. simpl.
    pose proof (segment_count_below size L HL (Z.of_nat m) ltac:(lia)).
    nia.
Qed.

(** X19: within the [int64] range, whatever plan the loop returns has
    exactly [ceil(size / L)] segments, each of 1 to [L] bytes, and their
    lengths add up to the size. *)
Theorem planChunks_count (size L : Z) (fuel : nat) (l : list ChunkInfo) :
  0 <= size -> 0 < L ->
  segment_count size L * L <= Int64.max_int ->
  planChunks fuel size L = Some l ->
  length l = Z.to_nat (segment_count size L) /\
  plan_bytes l = size /\
  (forall c, c ∈ l -> 1 <= chunk_bytes c <= L).
Proof.
  intros HS HL Hfit Hrun.
  pose proof (segment_count_nonneg size L HS HL) as Hn.
  pose proof (segment_count_reaches size L HL) as Hreach.
  assert (l = planned_upto size L (segment_count size L)) as ->.
  { set (big := (fuel + S (Z.to_nat (segment_count size L)))%nat).
    pose proof (planChunks_loop_mono fuel big size L 0 [] l
                  ltac:(lia) Hrun) as H1.
    pose proof (planChunks_run size L HS HL Hfit big ltac:(lia)) as H2.
    unfold planChunks in H2. congruence. }
  split; [apply planned_upto_length|]. split.
  - rewrite <- (Z2Nat.id (segment_count size L)) at 1 by done.
    rewrite planned_upto_bytes; rewrite ?Z2Nat.id; lia.
  - intros c Hc. apply list_elem_of_lookup in Hc as [k Hc].
    apply planned_upto_lookup in Hc as [Hk ->]. unfold chunk_bytes. simpl.
    pose proof (segment_count_below size L HL (Z.of_nat k) ltac:(lia)). lia.
Qed.

Lemma planChunks_count_witness :
  exists l, planChunks 20 (10 * 1024 * 1024) (1024 * 1024) = Some l /\
            length l = 10%nat /\ plan_bytes l = 10 * 1024 * 1024.
Proof.
  destruct (planChunks 20 (10 * 1024 * 1024) (1024 * 1024)) as [l|] eqn:E;
    [|vm_compute in E; discriminate].
  exists l. split; [done|].
  destruct (planChunks_count (10 * 1024 * 1024) (1024 * 1024) 20 l)
    as (Hlen & Hbytes & _).
  - lia.
  - lia.
  - vm_compute. discriminate.
  - exact E.
  - split; [exact Hlen|exact Hbytes].
Defined.

(** ** An empty file *)

Lemma run_pool_drained acts : forall p,
  chunkChan p = [] -> busy_chunks (workers p) = [] ->
  let q := run_pool acts p in
  pool_d q.1 = pool_d p /\ pool_w q.1 = pool_w p /\
  forall ev, ev ∈ q.2 -> exists k, ev = Left k.
Proof.
  induction acts as [|a acts IH]; intros p Hq Hbusy; cbv zeta.
  { split; [done|]. split; [done|]. intros ev Hev. by apply elem_of_nil in Hev. }
  rewrite run_pool_cons. simpl.
  assert (forall k c, workers p !! k = Some (Busy c) -> False) as Hnone.
  { intros k c Hk. pose proof (busy_chunks_insert _ k _ Idle Hk) as H.
    rewrite Hbusy in H. simpl in H.
    by apply Permutation_nil_r, app_eq_nil in H as [_ ?]. }
  assert (pool_d (pool_step a p).1 = pool_d p /\
          pool_w (pool_step a p).1 = pool_w p /\
          chunkChan (pool_step a p).1 = [] /\
          busy_chunks (workers (pool_step a p).1) = [] /\
          forall ev, ev ∈ (pool_step a p).2 -> exists k, ev = Left k)
    as (Hd & Hw & Hq1 & Hbusy1 & Hev1).
  { destruct (pool_step_cases a p)
      as [|k _ Hk _|k c queue _ _ Hqueue|k c reply elapsed d' w' e _ Hk _ _
          |k c reply elapsed d' w' e _ Hk _ _|k c reply elapsed d' w' _ Hk _
          |_ _ _|_ _ _];
      simpl; try (by destruct (Hnone _ _ Hk)); try congruence.
    - repeat split; try done. intros ev Hev. by apply elem_of_nil in Hev.
    - repeat split; try done.
      + pose proof (busy_chunks_insert _ k _ Exited Hk) as H.
        simpl in H. rewrite !app_nil_r, Hbusy in H.
        by apply Permutation_nil_r in H.
      + intros ev ->%list_elem_of_singleton. by exists k.
    - rewrite busy_chunks_spawn. repeat split; try done.
      intros ev Hev. by apply elem_of_nil in Hev.
    - repeat split; try done. intros ev Hev. by apply elem_of_nil in Hev. }
  destruct (IH (pool_step a p).1 Hq1 Hbusy1) as (Hd2 & Hw2 & Hev2).
  split; [congruence|]. split; [congruence|].
  intros ev [Hev|Hev]%elem_of_app; auto.
Qed.

(** X20: a file of size zero (or less) on the range path is finished
    without any transfer: nothing is planned, so the workers only leave;
    no request follows the probe, the file is created and truncated but
    never written, the downloader stays as probed, and the result can
    only be [nil]. *)
Theorem Download_empty_file (d : AdaptiveDownloader) (env : Env)
    (d1 : AdaptiveDownloader) :
  getFileSize d (env_head env) = (d1, (true, None)) ->
  env_create env = None ->
  env_truncate env = None ->
  FileSize d1 <= 0 ->
  (0 < env_fuel env)%nat ->
  0 <= CurrentConnections d1 ->
  let r := Download d env in
  res_d r = d1 /\
  res_w r = presized d1 env /\
  (forall ev, ev ∈ res_events r -> exists k, ev = Left k) /\
  (res_outcome r = Returned None \/ res_outcome r = Running).
Proof.
  intros Hprobe Hcreate Htrunc Hsize Hfuel Hcur.
  assert (planChunks (env_fuel env) (FileSize d1) (ChunkSize d1) = Some [])
    as Hplan.
  { unfold planChunks. destruct (env_fuel env) as [|fuel]; [lia|].
    rewrite planChunks_loop_unfold.
    by destruct (Z.ltb_spec 0 (FileSize d1)); [lia|]. }
  rewrite (Download_range_path d env d1 [] Hprobe Hcreate Htrunc Hplan Hcur).
  cbv zeta. simpl.
  assert (busy_chunks (workers (start_pool d1 (presized d1 env) [])) = [])
    as Hbusy by done.
  destruct (run_pool_drained (env_schedule env)
              (start_pool d1 (presized d1 env) []) eq_refl Hbusy)
    as (Hd & Hw & Hev).
  destruct (pool_history d1 (presized d1 env) [] (env_schedule env))
    as [Hh _].
  pose proof (h_errs _ _ _ Hh) as He.
  assert (failures (run_pool (env_schedule env)
                      (start_pool d1 (presized d1 env) [])).2 = []) as Hnone.
  { revert Hev. generalize (run_pool (env_schedule env)
                              (start_pool d1 (presized d1 env) [])).2.
    induction l as [|ev evs IH]; intros Hev; [done|].
    destruct (Hev ev ltac:(apply list_elem_of_here)) as [k ->].
    unfold failures. simpl. apply IH.
    intros ev' Hin. apply Hev. by apply list_elem_of_further. }
  split; [done|]. split; [done|]. split; [done|].
  unfold pool_outcome. rewrite He, Hnone, take_nil. destruct (_ && _); auto.
Qed.

Lemma Download_empty_file_witness :
  let env := mkEnv (inr (mkResponse 200 "200 OK"
                           (<["Content-Length" := ["0"]]>
                              (<["Accept-Ranges" := ["bytes"]]> ∅))))
               (mkSingleEnv None (inl (ErrExternal "unused")))
               None None 5
               [Spawn; Spawn; Spawn; Spawn; Spawn;
                Take 0%nat; Take 1%nat; Take 2%nat; Take 3%nat] in
  let r := Download (NewAdaptiveDownloader 0 "http://h/f" "f") env in
  net (res_w r) = [ReqHead "http://h/f"] /\ res_outcome r = Returned None.
Proof.
  cbv zeta.
  destruct (Download_empty_file (NewAdaptiveDownloader 0 "http://h/f" "f")
              (mkEnv (inr (mkResponse 200 "200 OK"
                             (<["Content-Length" := ["0"]]>
                                (<["Accept-Ranges" := ["bytes"]]> ∅))))
                 (mkSingleEnv None (inl (ErrExternal "unused")))
                 None None 5
                 [Spawn; Spawn; Spawn; Spawn; Spawn;
                  Take 0%nat; Take 1%nat; Take 2%nat; Take 3%nat])
              (set_FileSize 0 (NewAdaptiveDownloader 0 "http://h/f" "f")))
    as (_ & Hw & _ & _).
  - vm_compute. reflexivity.
  - reflexivity.
  - reflexivity.
  - simpl. lia.
  - simpl. lia.
  - simpl. lia.
  - split; [by rewrite Hw|]. vm_compute. reflexivity.
Defined.

(** ** What the pool does to the world *)

Lemma copyChunk_calls body : forall offset w st,
  exists calls,
    fs (copyChunk body offset w st).1.1 = fs w ++ calls /\
    net (copyChunk body offset w st).1.1 = net w /\
    Forall positioned_write calls.
Proof.
  induction body as [|step body IH]; intros offset w st.
  { exists []. simpl. by rewrite app_nil_r. }
  simpl. destruct (0 <? Z.of_nat (length (rd_data step))).
  - assert (positioned_write (mkCall (OpWriteAt (rd_data step) offset)
                                (wr_err step))) as Hw by (by do 2 eexists).
    destruct (wr_err step) as [e|] eqn:Ew; simpl.
    { exists [mkCall (OpWriteAt (rd_data step) offset) (Some e)].
      split; [done|]. split; [done|]. by constructor. }
    destruct (rd_err step); simpl.
    + edestruct (IH (Int64.add offset (Z.of_nat (length (rd_data step))))
                   (log_file (mkCall (OpWriteAt (rd_data step) offset) None) w)
                   (add_bytes (Z.of_nat (length (rd_data step))) st))
        as (calls & Hfs & Hnet & Hops).
      exists (mkCall (OpWriteAt (rd_data step) offset) None :: calls).
      rewrite Hfs, Hnet. simpl. rewrite <- app_assoc.
      split; [done|]. split; [done|]. by constructor.
    + exists [mkCall (OpWriteAt (rd_data step) offset) None].
      split; [done|]. split; [done|]. by constructor.
    + exists [mkCall (OpWriteAt (rd_data step) offset) None].
      split; [done|]. split; [done|]. by constructor.
  - destruct (rd_err step); simpl.
    + apply IH.
    + exists []. by rewrite app_nil_r.
    + exists []. by rewrite app_nil_r.
Qed.

Lemma downloadChunk_world d chunk w reply elapsed :
  let w' := (downloadChunk d chunk w reply elapsed).1.2 in
  (exists calls, fs w' = fs w ++ calls /\ Forall positioned_write calls) /\
  (net w' = net w \/
   net w' = net w ++ [ReqGetRange (URL d) (Start chunk) (End chunk)]).
Proof.
  cbv zeta. unfold downloadChunk. destruct reply as [e|e|resp body]; simpl.
  - split; [|auto]. exists []. by rewrite app_nil_r.
  - split; [|auto]. exists []. by rewrite app_nil_r.
  - destruct (negb _); simpl.
    { split; [|auto]. exists []. by rewrite app_nil_r. }
    destruct (copyChunk_calls body (Start chunk)
                (log_net (ReqGetRange (URL d) (Start chunk) (End chunk)) w)
                (Stats d)) as (calls & Hfs & Hnet & Hops).
    destruct (copyChunk _ _ _ _) as [[w' st'] err]. simpl in *.
    split; [by exists calls|]. by right.
Qed.

Lemma calculateOptimalConnections_URL d :
  URL (calculateOptimalConnections d) = URL d.
Proof.
  unfold calculateOptimalConnections. destruct (_ <? 3)%nat; [done|].
  destruct (_ && _); [done|]. by destruct (_ && _).
Qed.

Lemma pool_step_world w0 url chunks a p :
  world_ok w0 url chunks p -> world_ok w0 url chunks (pool_step a p).1.
Proof.
  intros [Hu (calls & Hfs & Hcalls) (reqs & Hnet & Hreqs) Hb Hq].
  assert (forall k c reply elapsed d' w' err,
            workers p !! k = Some (Busy c) ->
            downloadChunk (pool_d p) c (pool_w p) reply elapsed = (d', w', err) ->
            URL d' = url /\
            (exists calls, fs w' = fs w0 ++ calls /\
                           Forall positioned_write calls) /\
            (exists reqs, net w' = net w0 ++ reqs /\
                          Forall (planned_request url chunks) reqs))
    as Hfetch.
  { intros k c reply elapsed d' w' err Hk Hd.
    pose proof (downloadChunk_keeps (pool_d p) c (pool_w p) reply elapsed) as H1.
    pose proof (downloadChunk_world (pool_d p) c (pool_w p) reply elapsed)
      as [(calls' & Hfs' & Hcalls') Hnet'].
    rewrite Hd in H1, Hfs', Hnet'. simpl in *. split; [|split].
    - rewrite <- Hu, <- H1. by destruct d'.
    - exists (calls ++ calls'). rewrite Hfs', Hfs, <- app_assoc.
      split; [done|]. by apply Forall_app.
    - destruct Hnet' as [->| ->].
      + by exists reqs.
      + exists (reqs ++ [ReqGetRange (URL (pool_d p)) (Start c) (End c)]).
        rewrite Hnet, <- app_assoc. split; [done|].
        apply Forall_app. split; [done|]. constructor; [|constructor].
        exists c. split; [by eapply Hb|]. by rewrite Hu. }
  assert (forall k x y, workers p !! k = Some y ->
            (forall c, x = Busy c -> c ∈ chunks) ->
            forall k' c, <[k := x]> (workers p) !! k' = Some (Busy c) ->
                         c ∈ chunks) as Hins.
  { intros k x y Hk Hx k' c Hk'. insert_cases k' k Hk'.
    - injection Hk' as ->. by apply Hx.
    - by eapply Hb. }
  destruct (pool_step_cases a p)
    as [|k _ Hk Hqueue|k c queue _ Hk Hqueue
        |k c reply elapsed d' w' e _ Hk Hd _
        |k c reply elapsed d' w' e _ Hk Hd _
        |k c reply elapsed d' w' _ Hk Hd
        |_ _ _|_ _ _];
    simpl.
  - by split; eauto.
  - split; simpl; eauto.
    + by eapply Hins.
    + intros c Hc. by apply elem_of_nil in Hc.
  - split; simpl; eauto.
    + eapply Hins; [done|]. intros c' [= <-]. apply Hq. rewrite Hqueue.
      apply list_elem_of_here.
    + intros c' Hc'. apply Hq. rewrite Hqueue. by apply list_elem_of_further.
  - destruct (Hfetch _ _ _ _ _ _ _ Hk Hd) as (H1 & H2 & H3).
    split; simpl; eauto. by eapply Hins.
  - destruct (Hfetch _ _ _ _ _ _ _ Hk Hd) as (H1 & H2 & H3).
    split; simpl; eauto. by eapply Hins.
  - destruct (Hfetch _ _ _ _ _ _ _ Hk Hd) as (H1 & H2 & H3).
    split; simpl; eauto.
    + destruct (_ =? _); [|done]. by rewrite calculateOptimalConnections_URL.
    + by eapply Hins.
  - split; simpl; eauto.
    intros k c Hk. apply lookup_spawned in Hk; [by eapply Hb|done].
  - by split; eauto.
Qed.

Lemma run_pool_world w0 url chunks acts : forall p,
  world_ok w0 url chunks p -> world_ok w0 url chunks (run_pool acts p).1.
Proof.
  induction acts as [|a acts IH]; intros p Hp; [done|].
  rewrite run_pool_cons. simpl. by apply IH, pool_step_world.
Qed.

(** X21: whatever the schedule, everything the pool adds to the world is
    positioned writes on the file and range requests to the downloader's
    URL, each for the bounds of a segment of the plan: it never asks for
    bytes outside the planned segments and makes no other file call. *)
Theorem pool_world (d : AdaptiveDownloader) (w : World)
    (chunks : list ChunkInfo) (acts : list action) :
  let q := run_pool acts (start_pool d w chunks) in
  URL (pool_d q.1) = URL d /\
  (exists calls,
     fs (pool_w q.1) = fs w ++ calls /\ Forall positioned_write calls) /\
  (exists reqs,
     net (pool_w q.1) = net w ++ reqs /\
     Forall (planned_request (URL d) chunks) reqs).
Proof.
  cbv zeta.
  destruct (run_pool_world w (URL d) chunks acts (start_pool d w chunks))
    as [Hu Hfs Hnet _ _]; [|done].
  split; simpl; try done.
  - exists []. by rewrite app_nil_r.
  - exists []. by rewrite app_nil_r.
Qed.

(** ** The progress reporter *)

(** X22: with a size that is unknown ([-1]) or zero the reporter never
    returns on its own: it prints one plain line per tick, with the byte
    count it read, for as long as it is ticked. *)
Theorem reportProgress_unknown_size (fileSize : Z) (ticks : list Z) :
  fileSize <= 0 ->
  reportProgress fileSize ticks = (LinePlain <$> ticks, false).
Proof.
  intros Hsize. induction ticks as [|downloaded ticks IH]; [done|].
  simpl. destruct (Z.gtb_spec fileSize 0); [lia|]. simpl.
  by rewrite IH.
Qed.

Lemma reportProgress_unknown_size_witness :
  reportProgress (-1) [0; 10; 20] = ([LinePlain 0; LinePlain 10; LinePlain 20], false).
Proof. apply (reportProgress_unknown_size (-1) [0; 10; 20]). lia. Defined.

(** X23: with a known positive size the reporter prints a progress line
    for every tick at which the counter is still below the size, and
    returns, printing nothing, at the first tick at which the counter has
    reached it; so it never prints a count at or above the size, and it is
    still running if no such tick has come. *)
Theorem reportProgress_known_size (fileSize : Z) (ticks : list Z) :
  0 < fileSize ->
  exists before after,
    ticks = before ++ after /\
    Forall (fun downloaded => downloaded < fileSize) before /\
    (forall downloaded, head after = Some downloaded -> fileSize <= downloaded) /\
    reportProgress fileSize ticks
    = ((fun downloaded => LineProgress downloaded fileSize) <$> before,
       match after with [] => false | _ => true end).
Proof.
  intros Hsize. induction ticks as [|downloaded ticks IH].
  { exists [], []. repeat split; try done. }
  simpl. destruct (Z.gtb_spec fileSize 0); [|lia]. simpl.
  destruct (Z.geb_spec downloaded fileSize) as [Hge|Hlt].
  - exists [], (downloaded :: ticks). repeat split; try done.
    intros ? [= <-]. lia.
  - destruct IH as (before & after & -> & Hbefore & Hafter & ->).
    exists (downloaded :: before), after. repeat split; try done.
    by constructor.
Qed.

Lemma reportProgress_known_size_witness :
  reportProgress 100 [0; 40; 100; 100]
  = ([LineProgress 0 100; LineProgress 40 100], true).
Proof.
  destruct (reportProgress_known_size 100 [0; 40; 100; 100])
    as (before & after & _ & _ & _ & _); [lia|].
  reflexivity.
Defined.

(** ** The output file name *)

Lemma take_element_no_separator cs :
  Forall (fun c => is_separator c = false) (take_element cs).
Proof.
  induction cs as [|c cs IH]; simpl; [constructor|].
  destruct (is_separator c) eqn:E; by constructor.
Qed.

Lemma Base_cases path :
  Base path = "." \/ Base path = "/" \/
  exists element,
    element <> [] /\ Forall (fun c => is_separator c = false) element /\
    Base path = string_of_list_ascii element.
Proof.
  unfold Base. destruct path as [|c path]; [auto|].
  pose proof (List.Forall_rev
                (take_element_no_separator
                   (drop_separators (rev (list_ascii_of_string (String c path))))))
    as Hel.
  destruct (rev (take_element _)) as [|c' element'] eqn:E; [auto|].
  right. right. by exists (c' :: element').
Qed.

Lemma string_of_list_ascii_nonempty cs :
  cs <> [] -> string_of_list_ascii cs <> "".
Proof. by destruct cs. Qed.

(** X24: when no output name is given on the command line, the name
    [main] derives from the URL is never empty, never ["."] or ["/"] and
    contains no path separator: it is the last path element of the URL,
    or ["downloaded_file"] when there is none to use. *)
Theorem outputFilename_derived (args : list string) (url : string) :
  (length args <= 2)%nat ->
  let name := outputFilename args url in
  name <> "" /\ name <> "." /\ name <> "/" /\
  Forall (fun c => is_separator c = false) (list_ascii_of_string name) /\
  (name = Base url \/ name = "downloaded_file").
Proof.
  intros Hargs. cbv zeta.
  assert (outputFilename args url
          = if negb (String.eqb (Base url) "/") && negb (String.eqb (Base url) ".")
            then Base url else "downloaded_file") as ->.
  { destruct args as [|a0 [|a1 [|a2 args]]]; try done. simpl in Hargs. lia. }
  destruct (String.eqb_spec (Base url) "/") as [Hs|Hs]; simpl.
  { repeat split; try done; [|by right]. repeat constructor. }
  destruct (String.eqb_spec (Base url) ".") as [Hd|Hd]; simpl.
  { repeat split; try done; [|by right]. repeat constructor. }
  destruct (Base_cases url) as [H|[H|(element & Hne & Hel & H)]]; try done.
  rewrite H in *. repeat split; try done; [| |by left].
  - by apply string_of_list_ascii_nonempty.
  - by rewrite list_ascii_of_string_of_list_ascii.
Qed.

Lemma outputFilename_derived_witness :
  outputFilename ["fas-download"; "config.yaml"] "https://example.com/dir/"
  <> "".
Proof.
  apply (outputFilename_derived ["fas-download"; "config.yaml"]
           "https://example.com/dir/").
  simpl. lia.
Defined.

Lemma list_ascii_of_string_app s1 s2 :
  list_ascii_of_string (String.append s1 s2)
  = list_ascii_of_string s1 ++ list_ascii_of_string s2.
Proof. induction s1 as [|c s1 IH]; simpl; [done|]. by rewrite IH. Qed.

Lemma take_element_stops cs rest :
  Forall (fun c => is_separator c = false) cs ->
  take_element (cs ++ "/"%char :: rest) = cs.
Proof.
  induction 1 as [|c cs Hc _ IH]; simpl; [done|]. by rewrite Hc, IH.
Qed.

Lemma drop_separators_none c cs :
  is_separator c = false -> drop_separators (c :: cs) = c :: cs.
Proof. intros H. simpl. by rewrite H. Qed.

(** X25: for a URL that ends in [/name], with [name] non-empty, free of
    separators and not ["."], and no output name on the command line,
    [main] downloads to [name]. *)
Theorem outputFilename_last_element (args : list string)
    (prefix name : string) :
  (length args <= 2)%nat ->
  name <> "" -> name <> "." ->
  Forall (fun c => is_separator c = false) (list_ascii_of_string name) ->
  outputFilename args (String.append prefix (String.append "/" name)) = name.
Proof.
  intros Hargs Hne Hdot Hsep.
  set (url := String.append prefix (String.append "/" name)).
  assert (Base url = name) as Hbase.
  { assert (list_ascii_of_string url
            = list_ascii_of_string prefix ++ "/"%char :: list_ascii_of_string name)
      as Hurl by (subst url; by rewrite !list_ascii_of_string_app).
    unfold Base. destruct url as [|c url'] eqn:E.
    { by destruct (list_ascii_of_string prefix). }
    rewrite Hurl, rev_app_distr. simpl. rewrite <- !app_assoc. simpl.
    apply List.Forall_rev in Hsep as Hrev.
    destruct (rev (list_ascii_of_string name)) as [|c0 cs0] eqn:Er.
    { apply (f_equal (@rev ascii)) in Er. rewrite rev_involutive in Er.
      destruct name; done. }
    change ((c0 :: cs0) ++ "/"%char :: rev (list_ascii_of_string prefix))
      with (c0 :: (cs0 ++ "/"%char :: rev (list_ascii_of_string prefix))).
    rewrite drop_separators_none by (by inversion Hrev).
    change (c0 :: (cs0 ++ "/"%char :: rev (list_ascii_of_string prefix)))
      with ((c0 :: cs0) ++ "/"%char :: rev (list_ascii_of_string prefix)).
    rewrite take_element_stops by done.
    rewrite <- Er, rev_involutive.
    destruct (list_ascii_of_string name) eqn:En.
    { destruct name; done. }
    by rewrite <- En, string_of_list_ascii_of_string. }
  assert (outputFilename args url
          = if negb (String.eqb (Base url) "/") && negb (String.eqb (Base url) ".")
            then Base url else "downloaded_file") as ->.
  { destruct args as [|a0 [|a1 [|a2 args]]]; try done. simpl in Hargs. lia. }
  rewrite Hbase.
  destruct (String.eqb_spec name "/") as [->|_].
  { by inversion Hsep. }
  by destruct (String.eqb_spec name ".").
Qed.

Lemma outputFilename_last_element_witness :
  outputFilename ["fas-download"; "config.yaml"] "https://example.com/file.zip"
  = "file.zip".
Proof.
  apply (outputFilename_last_element ["fas-download"; "config.yaml"]
           "https://example.com" "file.zip").
  - simpl. lia.
  - discriminate.
  - discriminate.
  - repeat constructor.
Defined.
